(** * SEMISparse-MM: tiled tensor-core GEMM and its sparsity scaffolding

    A shallow embedding of the index arithmetic, the grid-stride tile
    scheduler, the global-memory store pattern of [compute_gemm]
    (cudaTensorCoreGemm.cu), the host-side block encoder of
    [init_host_matrices] and the global-memory load pattern of
    [semi_sparse] (code.cu); further, the shared-memory staging of
    [compute_gemm] (streams, chunk copy, fragments), the index arithmetic
    of [simple_wmma_gemm] and its launch, the host reference
    [matMultiplyOnHost] and the buffer sizes and the check of [main].

    C [unsigned int] values are integers in [Z] reduced modulo 2^32 after
    every operation; C [int] values are integers in [Z] in the signed
    32-bit range; arrays are total functions from an index to a value. *)

From Stdlib Require Import ZArith List Lia Bool Arith Permutation.
From Stdlib Require Import Floats.SpecFloat.
Import ListNotations.

#[local] Open Scope Z_scope.

(** ** Machine integers *)

Definition u32 (z : Z) : Z := z mod 2 ^ 32.

(** Two's-complement reading of a 32-bit pattern, as C [int] stores it. *)
Definition s32 (z : Z) : Z := (z + 2 ^ 31) mod 2 ^ 32 - 2 ^ 31.

(** ** Compile-time configuration (the macros of cudaTensorCoreGemm.cu) *)

Definition WARP_SIZE : Z := 32.
Definition M : Z := 16.
Definition N : Z := 16.
Definition K : Z := 16.
Definition TILING_SIZE : Z := 16.
Definition WARPS_PER_BLOCK : Z := 8.
Definition CHUNK_K : Z := 4.
Definition BLOCK_ROW_WARPS : Z := 2.
Definition BLOCK_COL_WARPS : Z := 4.
Definition WARP_ROW_TILES : Z := 4.
Definition WARP_COL_TILES : Z := 2.
Definition BLOCK_ROW_TILES : Z := WARP_ROW_TILES * BLOCK_ROW_WARPS.
Definition BLOCK_COL_TILES : Z := WARP_COL_TILES * BLOCK_COL_WARPS.
Definition SHMEM_STRIDE : Z := N * BLOCK_ROW_TILES.
Definition SKEW_HALF : Z := 16.
Definition CHUNK_COPY_LINES_PER_WARP : Z := 4.
Definition CHUNK_COPY_LINE_LANES : Z := 8.

(** The GEMM size.  The source fixes [M_TILES = N_TILES = K_TILES = 256];
    the development is parametric in the three tile counts. *)
Record dims : Type := Dims { M_TILES : Z; N_TILES : Z; K_TILES : Z }.

Definition src_dims : dims := Dims 256 256 256.

Definition M_GLOBAL (d : dims) : Z := M * M_TILES d.
Definition N_GLOBAL (d : dims) : Z := N * N_TILES d.
Definition K_GLOBAL (d : dims) : Z := K * K_TILES d.
Definition GLOBAL_MEM_STRIDE (d : dims) : Z := N_GLOBAL d.

(** Legal sizes: every global dimension is a positive multiple of 128
    (hence of 16), i.e. every tile count is a positive multiple of 8, and
    the element count of D is addressable by the 32-bit index arithmetic
    of the kernel. *)
Definition legal_dims (d : dims) : Prop :=
  (exists m, 0 < m /\ M_TILES d = 8 * m) /\
  (exists n, 0 < n /\ N_TILES d = 8 * n) /\
  (exists k, 0 < k /\ K_TILES d = 8 * k) /\
  M_GLOBAL d * N_GLOBAL d <= 2 ^ 32.

(** Number of 128x128 output tiles of D. *)
Definition num_block_tiles (d : dims) : Z :=
  (M_TILES d / BLOCK_COL_TILES) * (N_TILES d / BLOCK_ROW_TILES).

(** ** The grid-stride tile scheduler (compute_gemm lines 267-274,
       semi_sparse lines 36-43) *)

Definition block_tile_i (d : dims) (block_pos : Z) : Z :=
  u32 (u32 (block_pos * BLOCK_ROW_TILES) / N_TILES d * BLOCK_COL_TILES).

Definition block_tile_j (d : dims) (block_pos : Z) : Z :=
  u32 (block_pos * BLOCK_COL_TILES) mod N_TILES d.

(** The [for (block_pos = blockIdx.x;; block_pos += gridDim.x)] loop of one
    thread block.  It returns the output tiles the block works on, in
    order, or [None] when [fuel] iterations did not reach the [break]. *)
Fixpoint block_loop (fuel : nat) (d : dims) (gridDim block_pos : Z)
  : option (list (Z * Z)) :=
  match fuel with
  | O => None
  | S fuel' =>
      let i := block_tile_i d block_pos in
      let j := block_tile_j d block_pos in
      if M_TILES d <=? i then Some []
      else match block_loop fuel' d gridDim (u32 (block_pos + gridDim)) with
           | Some l => Some ((i, j) :: l)
           | None => None
           end
  end.

(** All thread blocks of a launch with [gridDim] blocks. *)
Definition grid_schedule (fuel : nat) (d : dims) (gridDim : Z)
  : list (option (list (Z * Z))) :=
  map (fun b => block_loop fuel d gridDim (Z.of_nat b))
      (seq 0 (Z.to_nat gridDim)).

(** The 128x128 output tiles of D, named by the tile coordinates of their
    top-left 16x16 sub-tile. *)
Definition is_output_tile (d : dims) (t : Z * Z) : Prop :=
  0 <= fst t < M_TILES d /\ 0 <= snd t < N_TILES d /\
  fst t mod BLOCK_COL_TILES = 0 /\ snd t mod BLOCK_ROW_TILES = 0.

(** A launch whose position arithmetic stays below 2^32. *)
Definition no_wrap (d : dims) (gridDim : Z) : Prop :=
  BLOCK_ROW_TILES * (num_block_tiles d + gridDim) <= 2 ^ 32.

(** Positions [p, p+G, p+2G, ...] below [T]: the values [block_pos] takes
    before the [break], when nothing wraps. *)
Fixpoint stride_positions (fuel : nat) (T G p : Z) : list Z :=
  match fuel with
  | O => []
  | S fuel' => if T <=? p then [] else p :: stride_positions fuel' T G (p + G)
  end.

Definition tile_of (d : dims) (p : Z) : Z * Z :=
  (block_tile_i d p, block_tile_j d p).

(** ** Global memory *)

(** The ten device buffers the two kernels receive. *)
Inductive buffer : Type :=
| BufA | BufB | BufC | BufD
| BufA_new | BufB_new
| BufA_sparse_info | BufA_tsize_info
| BufB_sparse_info | BufB_tsize_info.

Definition buffer_eqb (a b : buffer) : bool :=
  match a, b with
  | BufA, BufA | BufB, BufB | BufC, BufC | BufD, BufD
  | BufA_new, BufA_new | BufB_new, BufB_new
  | BufA_sparse_info, BufA_sparse_info | BufA_tsize_info, BufA_tsize_info
  | BufB_sparse_info, BufB_sparse_info
  | BufB_tsize_info, BufB_tsize_info => true
  | _, _ => false
  end.

(** Global memory: every buffer is an object of its own, read and written
    by element index (a [half] index for A, B, A_new and B_new, a [float]
    index for C and D, an [int] index for the four info tables).  A cell
    holds the bit pattern of its element. *)
Definition memory : Type := buffer -> Z -> Z.

Definition access : Type := (buffer * Z)%type.

Definition load (mem : memory) (a : access) : Z := mem (fst a) (snd a).

Definition store (mem : memory) (a : access) (v : Z) : memory :=
  fun b i => if buffer_eqb (fst a) b && (snd a =? i) then v else mem b i.

(** [0, 1, ..., n-1], the index values of a counted loop or of the lanes
    and warps of a block. *)
Definition range (n : nat) : list Z := map Z.of_nat (seq 0 n).

(** ** Global-memory accesses of one output tile *)

(** [gmem_idx] of warp [warpId] (line 277), in [unsigned int] arithmetic. *)
Definition gmem_idx (d : dims) (bi bj warpId : Z) : Z :=
  u32 (u32 (u32 (u32 (bi + warpId) * M) * GLOBAL_MEM_STRIDE d) + u32 (bj * N)).

(** The float cells of C or D one block streams for a tile (lines 282-287
    and 414-417): warp [warpId], row [i] of its 16 rows, lane [laneId],
    and the four floats of the lane's [int4].  Each cell comes with its
    row and column inside the 128x128 tile. *)
Definition tile_cells (d : dims) (bi bj : Z) : list (Z * (Z * Z)) :=
  flat_map (fun warpId =>
    flat_map (fun i =>
      flat_map (fun laneId =>
        map (fun e =>
               (gmem_idx d bi bj warpId + GLOBAL_MEM_STRIDE d * i
                + 4 * laneId + e,
                (16 * warpId + i, 4 * laneId + e)))
            (range 4))
        (range 32))
      (range 16))
    (range 8).


Definition c_loads (d : dims) (bi bj : Z) : list access :=
  map (fun c => (BufC, fst c)) (tile_cells d bi bj).

(** [warp_ptr] (lines 329-330): warps 0-3 point into A, warps 4-7 into B;
    the offset is in [half] elements. *)
Definition warp_ptr (d : dims) (bi bj warpId : Z) : access :=
  if warpId <? 4
  then (BufA, u32 (u32 (bi * M) * K_GLOBAL d)
              + u32 (M * K_GLOBAL d * (warpId mod 4) * 2))
  else (BufB, u32 (u32 (bj * N) * K_GLOBAL d)
              + u32 (N * K_GLOBAL d * (warpId mod 4) * 2)).

(** [lane_ptr] at the top of a [tile_k] iteration (line 342). *)
Definition lane_ptr (d : dims) (bi bj warpId laneId tile_k : Z) : access :=
  let wp := warp_ptr d bi bj warpId in
  (fst wp,
   snd wp + tile_k * K + u32 ((laneId / CHUNK_COPY_LINE_LANES) * K_GLOBAL d)
   + 8 * (laneId mod CHUNK_COPY_LINE_LANES)).

(** The eight [half] cells of one 16-byte [int4] load. *)
Definition int4_load (p : access) : list access :=
  map (fun e => (fst p, snd p + e)) (range 8).

(** The values of [tile_k] in [for (tile_k = 0; tile_k < K_TILES;
    tile_k += CHUNK_K)]. *)
Definition tile_k_values (d : dims) : list Z :=
  map (fun c => CHUNK_K * c)
      (range (Z.to_nat ((K_TILES d + CHUNK_K - 1) / CHUNK_K))).

(** The dense chunk copy (lines 348-355): eight [int4] loads per lane,
    [K_GLOBAL * CHUNK_COPY_LINES_PER_WARP] halves apart. *)
Definition chunk_loads (d : dims) (p : access) : list access :=
  flat_map (fun i =>
      int4_load (fst p, snd p + i * (K_GLOBAL d * CHUNK_COPY_LINES_PER_WARP)))
    (range 8).

(** Every global load [compute_gemm] issues for one output tile. *)
Definition compute_gemm_loads (d : dims) (bi bj : Z) : list access :=
  c_loads d bi bj ++
  flat_map (fun warpId =>
    flat_map (fun laneId =>
      flat_map (fun tile_k =>
          chunk_loads d (lane_ptr d bi bj warpId laneId tile_k))
        (tile_k_values d))
      (range 32))
    (range 8).

(** ** The two kernels as memory transformers *)



Section Kernel.
(** What distinguishes the kernels here: the global loads per tile. *)
Variable tile_loads : dims -> Z -> Z -> list access.
(** The arithmetic between the loads and the stores (staging through
    shared memory, tensor-core accumulation, scaling): from the loaded
    words, [alpha], [beta] and a position in the tile to the word
    stored there. *)
Variable datapath : list Z -> Z -> Z -> Z * Z -> Z.



End Kernel.


(** ** The alpha/beta scaling around the accumulation (binary32)

    [float] values are IEEE-754 binary32 numbers: the Standard Library's
    [spec_float] at precision 24 and maximal exponent 128, rounding to
    nearest even. *)

Definition f32_mul : spec_float -> spec_float -> spec_float := SFmul 24 128.
Definition f32_div : spec_float -> spec_float -> spec_float := SFdiv 24 128.
Definition f32_add : spec_float -> spec_float -> spec_float := SFadd 24 128.

Definition f32_zero : spec_float := S754_zero false.
Definition f32_one : spec_float := S754_finite false 8388608 (-23).
Definition f32_two : spec_float := S754_finite false 8388608 (-22).

Definition f32_is_zero (x : spec_float) : bool :=
  match x with S754_zero _ => true | _ => false end.

Definition f32_is_finite (x : spec_float) : bool :=
  match x with S754_zero _ | S754_finite _ _ _ => true | _ => false end.


(** [beta /= alpha] (line 262). *)
Definition adjust_beta (alpha beta : spec_float) : spec_float :=
  f32_div beta alpha.

(** [c[i][j].x[t] *= beta] (line 322), with the adjusted [beta]. *)
Definition scale_c (beta x : spec_float) : spec_float := f32_mul x beta.

(** [c[i][j].x[t] *= alpha] (line 400). *)
Definition scale_d (alpha x : spec_float) : spec_float := f32_mul x alpha.

Section Accumulate.
(** The operand fragments and the tensor-core instruction
    [wmma::mma_sync(c, a, b, c)], which returns the new accumulator
    fragment; the hardware fixes its rounding, the source does not. *)
Variables frag_a frag_b : Type.
Variable mma_sync : list spec_float -> frag_a -> frag_b -> list spec_float.

(** The [tile_k] / [k_step] loops on one accumulator fragment
    (lines 334-389). *)
Definition accumulate (c : list spec_float) (ab : list (frag_a * frag_b))
  : list spec_float :=
  fold_left (fun c p => mma_sync c (fst p) (snd p)) ab c.

(** One accumulator fragment from the C values it is loaded with to the D
    values it is stored as (lines 262, 315-325, 334-389, 399-400). *)
Definition accumulator_result (alpha beta : spec_float)
           (c_in : list spec_float) (ab : list (frag_a * frag_b))
  : list spec_float :=
  map (scale_d alpha)
      (accumulate (map (scale_c (adjust_beta alpha beta)) c_in) ab).
End Accumulate.


(** ** Global loads of [semi_sparse] (code.cu)

    The staging code of [semi_sparse] between its two SJ markers is not
    well-typed C++ (it adds an [int] to an [int4] and subscripts an [int])
    and [SIZE2] is declared nowhere, so only its pointer arithmetic and
    the places it dereferences a global pointer are embedded; [SIZE2] is a
    parameter.  The loads that surround it are those of [compute_gemm]. *)

(** [warp_sparse_ptr] (lines 104-105): a pointer into A (warps 0-3) or B
    (warps 4-7), offset in [half] elements, then used as an [int] pointer. *)
Definition warp_sparse_ptr (d : dims) (bi bj warpId : Z) : access :=
  if warpId <? 4
  then (BufA, u32 (bi * (K_GLOBAL d / 4))
              + u32 (K_GLOBAL d / 4 * (warpId mod 4) * 2))
  else (BufB, u32 (bj * (K_GLOBAL d / 4))
              + u32 (K_GLOBAL d / 4 * (warpId mod 4) * 2)).


(** The two [half] cells that the 4-byte load [p[t]] through an [int]
    pointer [p] covers. *)
Definition int_load (p : access) (t : Z) : list access :=
  [(fst p, snd p + 2 * t); (fst p, snd p + 2 * t + 1)].

(** Loads of one lane in one [tile_k] iteration (lines 121-183), in
    program order:
    - [sparse_info1], [sparse_info2] (lines 129-130);
    - [each_size1], [each_size2] for lanes below 8 (lines 135-136);
    - 64 loads of [*lane_ptr], 32 halves apart (lines 140-146);
    - [SIZE2] loads of [*lane_ptr], 32 halves apart (lines 155-162);
    - the dense chunk copy from where [lane_ptr] then stands (176-183). *)
Definition sparse_lane_loads (d : dims) (SIZE2 : Z)
           (bi bj warpId laneId tile_k : Z) : list access :=
  let wsp := warp_sparse_ptr d bi bj warpId in
  let lp := lane_ptr d bi bj warpId laneId tile_k in
  int_load wsp laneId ++
  int_load wsp (u32 (laneId + K_GLOBAL d / 4)) ++
  (if laneId <? 8
   then int_load wsp laneId ++ int_load wsp (u32 (laneId + K_GLOBAL d / 16))
   else []) ++
  flat_map (fun i => int4_load (fst lp, snd lp + 32 * i)) (range 64) ++
  flat_map (fun i => int4_load (fst lp, snd lp + 32 * 64 + 32 * i))
           (range (Z.to_nat SIZE2)) ++
  chunk_loads d (fst lp, snd lp + 32 * 64 + 32 * Z.max 0 SIZE2).

(** Every global load [semi_sparse] issues for one output tile. *)
Definition semi_sparse_loads (SIZE2 : Z) (d : dims) (bi bj : Z) : list access :=
  c_loads d bi bj ++
  flat_map (fun warpId =>
    flat_map (fun laneId =>
      flat_map (fun tile_k =>
          sparse_lane_loads d SIZE2 bi bj warpId laneId tile_k)
        (tile_k_values d))
      (range 32))
    (range 8).



(** ** The host-side generator and block encoder ([init_host_matrices]) *)

(** A counted loop [for (k = 0; k < n; k++) s = body k s]. *)
Definition for_loop {S : Type} (n : nat) (body : Z -> S -> S) (s : S) : S :=
  fold_left (fun s k => body k s) (range n) s.

(** Array update [f[i] = v]. *)
Definition upd {V : Type} (f : Z -> V) (i : Z) (v : V) : Z -> V :=
  fun k => if k =? i then v else f k.

(** [(half)(v)] for the integers 0, 1 and 2 that [rand() % 3] yields, as
    binary16 bit patterns (0.0, 1.0, 2.0). *)
Definition half_of_int (v : Z) : Z :=
  if v =? 0 then 0 else if v =? 1 then 15360 else 16384.

(** [(float)(v)] for the same integers, as binary32 bit patterns. *)
Definition float_of_int (v : Z) : Z :=
  if v =? 0 then 0 else if v =? 1 then 1065353216 else 1073741824.

(** State of the generation loop (lines 180-191): the dense buffer [a],
    the flags [A_zero_info], the number [A_count] of flagged entries (which
    is also the number of [rand()] calls made so far). *)
Record gen_state : Type := GenState {
  g_a : Z -> Z;
  g_zero_info : Z -> bool;
  g_count : Z
}.

(** The random sources: [bern k] is the outcome of the [k]-th call of
    [distribution(generator)], [rand k] the result of the [k]-th call of
    [rand()].  The generation loop draws once per matrix entry, in index
    order, so the draw number of entry [i * K_GLOBAL + j] is that index. *)
Definition gen_elem (d : dims) (bern : Z -> bool) (rand : Z -> Z)
           (i j : Z) (g : gen_state) : gen_state :=
  let idx := i * K_GLOBAL d + j in
  if bern idx
  then GenState (upd (g_a g) idx (half_of_int (rand (g_count g) mod 3)))
                (upd (g_zero_info g) idx true)
                (g_count g + 1)
  else GenState (upd (g_a g) idx 0)
                (upd (g_zero_info g) idx false)
                (g_count g).

Definition generate (d : dims) (bern : Z -> bool) (rand : Z -> Z)
           (a0 : Z -> Z) : gen_state :=
  for_loop (Z.to_nat (M_GLOBAL d))
    (fun i => for_loop (Z.to_nat (K_GLOBAL d))
                (fun j => gen_elem d bern rand i j))
    (GenState a0 (fun _ => false) 0).

(** Index of element [(ii, jj)] of block [(i, j)] in the dense buffer. *)
Definition cell_idx (d : dims) (i j ii jj : Z) : Z :=
  (i * TILING_SIZE + ii) * K_GLOBAL d + (j * TILING_SIZE + jj).

(** State of the two inner loops over one 16x16 block: the compacted
    stream and its fill count, the local [sparse_info[8]] and the running
    [count_info]. *)
Record block_state : Type := BlockState {
  bs_new : Z -> Z;
  bs_new_count : Z;
  bs_sparse_info : Z -> Z;
  bs_count_info : Z
}.

(** Body of the innermost loop (lines 201-205 and 221-225).  [src] is the
    buffer the value is read from. *)
Definition encode_elem (d : dims) (zero_info : Z -> bool) (src : Z -> Z)
           (i j ii jj : Z) (s : block_state) : block_state :=
  if zero_info (cell_idx d i j ii jj)
  then BlockState
         (upd (bs_new s) (bs_new_count s) (src (cell_idx d i j ii jj)))
         (bs_new_count s + 1)
         (upd (bs_sparse_info s) (ii / 2)
              (Z.lor (bs_sparse_info s (ii / 2))
                     (s32 (Z.shiftl 1 ((ii mod 2) * 16 + jj)))))
         (bs_count_info s + 1)
  else s.

(** State of an encoding pass: stream, fill count, bitmask table,
    prefix-count table, running count. *)
Record enc_state : Type := EncState {
  new_vals : Z -> Z;
  new_count : Z;
  sparse_tab : Z -> Z;
  tsize_tab : Z -> Z;
  count_info : Z
}.

(** The two inner loops of block [(i, j)], started from the pass state. *)
Definition encode_cells (d : dims) (zero_info : Z -> bool) (src : Z -> Z)
           (i j : Z) (s : enc_state) : block_state :=
  for_loop 16
    (fun ii => for_loop 16 (fun jj => encode_elem d zero_info src i j ii jj))
    (BlockState (new_vals s) (new_count s) (fun _ => 0) (count_info s)).

(** One iteration of the block loops (lines 197-212 and 217-232). *)
Definition encode_block (d : dims) (zero_info : Z -> bool) (src : Z -> Z)
           (i j : Z) (s : enc_state) : enc_state :=
  let bs := encode_cells d zero_info src i j s in
  let blk := i * K_GLOBAL d / TILING_SIZE + j in
  EncState
    (bs_new bs)
    (bs_new_count bs)
    (for_loop 8 (fun k tab => upd tab (blk * 8 + k) (bs_sparse_info bs k))
              (sparse_tab s))
    (upd (tsize_tab s) blk (bs_count_info bs))
    (bs_count_info bs).

(** One encoding pass: the block loops with their counters reset. *)
Definition encode_pass (d : dims) (zero_info : Z -> bool) (src : Z -> Z)
           (new0 sparse0 tsize0 : Z -> Z) : enc_state :=
  for_loop (Z.to_nat (M_GLOBAL d / TILING_SIZE))
    (fun i => for_loop (Z.to_nat (K_GLOBAL d / TILING_SIZE))
                (fun j => encode_block d zero_info src i j))
    (EncState new0 0 sparse0 tsize0 0).

(** The uninitialised host buffers [init_host_matrices] is handed. *)
Record host_buffers : Type := HostBuffers {
  h_a : Z -> Z;  h_b : Z -> Z;  h_c : Z -> Z;
  h_a_new : Z -> Z;  h_b_new : Z -> Z;
  h_A_sparse_info : Z -> Z;  h_A_tsize_info : Z -> Z;
  h_B_sparse_info : Z -> Z;  h_B_tsize_info : Z -> Z
}.

Record host_result : Type := HostResult {
  r_gen : gen_state;
  r_b : Z -> Z;
  r_encA : enc_state;
  r_encB : enc_state;
  r_c : Z -> Z
}.

(** [init_host_matrices].  [B_zero_info] is a value-initialised
    [std::vector<bool>] that is never assigned, [b] is never assigned, and
    the second pass reads its values from [a] (line 222). *)
Definition init_host_matrices (d : dims) (bern : Z -> bool) (rand : Z -> Z)
           (h : host_buffers) : host_result :=
  let g := generate d bern rand (h_a h) in
  let B_zero_info := fun _ : Z => false in
  let encA := encode_pass d (g_zero_info g) (g_a g)
                (h_a_new h) (h_A_sparse_info h) (h_A_tsize_info h) in
  let encB := encode_pass d B_zero_info (g_a g)
                (h_b_new h) (h_B_sparse_info h) (h_B_tsize_info h) in
  let c := for_loop (Z.to_nat (M_GLOBAL d * N_GLOBAL d))
             (fun t c => upd c t (float_of_int (rand (g_count g + t) mod 3)))
             (h_c h) in
  HostResult g (h_b h) encA encB c.

(** ** The codec, read off the encoder's output *)

(** The 256 positions [(ii, jj)] of a block in row-major scan order. *)
Definition block_pairs : list (Z * Z) :=
  flat_map (fun ii => map (pair ii) (range 16)) (range 16).

(** Number of set bits among the 32 bits of an [int]. *)
Definition popcount32 (w : Z) : Z :=
  Z.of_nat (length (filter (Z.testbit w) (range 32))).

(** Popcount of the bitmask of block number [blk]: its eight words. *)
Definition popcount_block (tab : Z -> Z) (blk : Z) : Z :=
  fold_right Z.add 0 (map (fun k => popcount32 (tab (blk * 8 + k))) (range 8)).

(** The prefix-count table with [count[-1] = 0]. *)
Definition count_before (tab : Z -> Z) (blk : Z) : Z :=
  if blk =? 0 then 0 else tab (blk - 1).

(** The values of block [blk] in the compacted stream: the slice between
    the previous block's count and this block's count. *)
Definition block_values (s : enc_state) (blk : Z) : list Z :=
  map (fun k => new_vals s (count_before (tsize_tab s) blk + k))
      (range (Z.to_nat (tsize_tab s blk - count_before (tsize_tab s) blk))).



(** The bit of position [(ii, jj)] in the eight mask words of a block. *)
Definition mask_bit (masks : Z -> Z) (p : Z * Z) : bool :=
  Z.testbit (masks (fst p / 2)) ((fst p mod 2) * 16 + snd p).



(** ** Reading the encoder's loops cell by cell *)

(** Flag and value of position [p] of block [(i, j)]. *)
Definition cell_flag (d : dims) (zero_info : Z -> bool) (i j : Z)
           (p : Z * Z) : bool :=
  zero_info (cell_idx d i j (fst p) (snd p)).

Definition cell_val (d : dims) (src : Z -> Z) (i j : Z) (p : Z * Z) : Z :=
  src (cell_idx d i j (fst p) (snd p)).

Definition encode_step (d : dims) (zero_info : Z -> bool) (src : Z -> Z)
           (i j : Z) (s : block_state) (p : Z * Z) : block_state :=
  encode_elem d zero_info src i j (fst p) (snd p) s.

(** Position [p] owns bit [b] of mask word [w]. *)
Definition same_bit (w b : Z) (p : Z * Z) : bool :=
  (fst p / 2 =? w) && ((fst p mod 2) * 16 + snd p =? b).

(** The values of the flagged cells among [cells], in order. *)
Definition flagged_vals (d : dims) (zero_info : Z -> bool) (src : Z -> Z)
           (i j : Z) (cells : list (Z * Z)) : list Z :=
  map (cell_val d src i j) (filter (cell_flag d zero_info i j) cells).

(** State of the inner loops after the cells [done], started with stream
    [new0] filled up to [n0] and running count [c0]. *)
Definition elem_inv (d : dims) (zero_info : Z -> bool) (src : Z -> Z)
           (i j : Z) (new0 : Z -> Z) (n0 c0 : Z)
           (done : list (Z * Z)) (bs : block_state) : Prop :=
  bs_count_info bs
  = c0 + Z.of_nat (length (flagged_vals d zero_info src i j done)) /\
  bs_new_count bs
  = n0 + Z.of_nat (length (flagged_vals d zero_info src i j done)) /\
  (forall q, q < n0 -> bs_new bs q = new0 q) /\
  (forall k, (k < length (flagged_vals d zero_info src i j done))%nat ->
     bs_new bs (n0 + Z.of_nat k)
     = nth k (flagged_vals d zero_info src i j done) 0) /\
  (forall w b, 0 <= b < 32 ->
     Z.testbit (bs_sparse_info bs w) b
     = existsb (fun p => cell_flag d zero_info i j p && same_bit w b p) done).

(** Flags and flagged values of block number [blk] (blocks are numbered
    in the order of the block loops: [blk = i * K_TILES + j]). *)
Definition blk_flag (d : dims) (zero_info : Z -> bool) (blk : Z)
  : Z * Z -> bool :=
  cell_flag d zero_info (blk / K_TILES d) (blk mod K_TILES d).

Definition blk_vals (d : dims) (zero_info : Z -> bool) (src : Z -> Z)
           (blk : Z) : list Z :=
  flagged_vals d zero_info src (blk / K_TILES d) (blk mod K_TILES d)
               block_pairs.

(** Number of flagged entries in the first [n] blocks. *)
Fixpoint prefix_count (d : dims) (zero_info : Z -> bool) (src : Z -> Z)
         (n : nat) : Z :=
  match n with
  | O => 0
  | S n' => prefix_count d zero_info src n'
            + Z.of_nat (length (blk_vals d zero_info src (Z.of_nat n')))
  end.

(** State of an encoding pass after its first [n] blocks. *)
Definition pass_inv (d : dims) (zero_info : Z -> bool) (src : Z -> Z)
           (n : nat) (st : enc_state) : Prop :=
  count_info st = prefix_count d zero_info src n /\
  new_count st = prefix_count d zero_info src n /\
  (forall b, (b < n)%nat ->
     tsize_tab st (Z.of_nat b) = prefix_count d zero_info src (S b)) /\
  (forall b p, (b < n)%nat -> In p block_pairs ->
     mask_bit (fun k => sparse_tab st (Z.of_nat b * 8 + k)) p
     = blk_flag d zero_info (Z.of_nat b) p) /\
  (forall b k, (b < n)%nat ->
     (k < length (blk_vals d zero_info src (Z.of_nat b)))%nat ->
     new_vals st (prefix_count d zero_info src b + Z.of_nat k)
     = nth k (blk_vals d zero_info src (Z.of_nat b)) 0).

(** Sizes the host encoder can index: positive tile counts and an element
    count within the range of [int]. *)
Definition encodable (d : dims) : Prop :=
  0 < M_TILES d /\ 0 < K_TILES d /\ M_GLOBAL d * K_GLOBAL d < 2 ^ 31.

(** The position that owns bit [b] of mask word [w]. *)
Definition bit_owner (w b : Z) : Z * Z := (2 * w + b / 16, b mod 16).


(** Inputs used to exercise the host code: a 128x128x128 problem, a
    Bernoulli source that flags every even draw, a [rand()] that counts,
    and host buffers filled with the pattern of 1.0. *)
Definition small_dims : dims := Dims 8 8 8.
Definition demo_bern (k : Z) : bool := Z.even k.
Definition demo_rand (k : Z) : Z := k.
Definition demo_buffers : host_buffers :=
  HostBuffers (fun _ => 15360) (fun _ => 15360) (fun _ => 0)
              (fun _ => 15360) (fun _ => 15360)
              (fun _ => 1) (fun _ => 1) (fun _ => 1) (fun _ => 1).


(** ** The host reference ([matMultiplyOnHost]) and the check of [main] *)

(** [(float)h] for a [half] given by its binary16 bit pattern: the exact
    binary32 value of the sign, the five exponent bits and the ten
    mantissa bits. *)
Definition half_to_f32 (h : Z) : spec_float :=
  let s := Z.testbit h 15 in
  let e := Z.land (Z.shiftr h 10) 31 in
  let m := Z.land h 1023 in
  if e =? 31 then (if m =? 0 then S754_infinity s else S754_nan)
  else if e =? 0 then binary_normalize 24 128 (if s then - m else m) (-24) s
  else binary_normalize 24 128 (if s then - (m + 1024) else m + 1024)
                        (e - 25) s.

Definition f32_sub : spec_float -> spec_float -> spec_float := SFsub 24 128.

(** [0.1f] and [1.2f] (the tolerance and the [beta] of [main]). *)
Definition f32_0_1 : spec_float := S754_finite false 13421773 (-27).
Definition f32_1_2 : spec_float := S754_finite false 10066330 (-23).





(** The test of the verification loop of [main] (line 670):
    [fabs(x - y) > 0.1f]. *)
Definition mismatch (x y : spec_float) : bool :=
  SFltb f32_0_1 (SFabs (f32_sub x y)).

(** ** Host buffers of [main] *)

(** Element counts of the buffers [main] allocates for the encoder's
    output (lines 540-547): [a_new] and [b_new], the bitmask tables, the
    prefix-count tables. *)
Definition a_new_len (d : dims) : Z := M_GLOBAL d * K_GLOBAL d.
Definition sparse_info_len (d : dims) : Z := M_GLOBAL d * K_GLOBAL d / 32.
Definition tsize_info_len (d : dims) : Z :=
  M_GLOBAL d * K_GLOBAL d / (16 * 16).

(** What an encoding pass has touched after its first [n] blocks. *)
Definition pass_frame (new0 sparse0 tsize0 : Z -> Z) (n : nat)
           (st : enc_state) : Prop :=
  0 <= new_count st <= 256 * Z.of_nat n /\
  (forall q, ~ 0 <= q < new_count st -> new_vals st q = new0 q) /\
  (forall x, ~ 0 <= x < 8 * Z.of_nat n -> sparse_tab st x = sparse0 x) /\
  (forall x, ~ 0 <= x < Z.of_nat n -> tsize_tab st x = tsize0 x).

(** ** The generation loop in closed form *)

(** Number of flagged draws among the first [n] Bernoulli draws. *)
Definition flag_count (bern : Z -> bool) (n : nat) : Z :=
  Z.of_nat (length (filter bern (range n))).

(** What the generation loop leaves in [a] at an index it visits: a
    flagged entry takes the next unused [rand()] draw, whose number is the
    number of flagged entries before it. *)
Definition gen_value (bern : Z -> bool) (rand : Z -> Z) (idx : Z) : Z :=
  if bern idx
  then half_of_int (rand (flag_count bern (Z.to_nat idx)) mod 3)
  else 0.

(** State of the generation loop after its first [n] entries, in full. *)
Definition gen_full (bern : Z -> bool) (rand : Z -> Z) (a0 : Z -> Z)
           (n : nat) (g : gen_state) : Prop :=
  g_count g = flag_count bern n /\
  (forall idx, 0 <= idx < Z.of_nat n ->
     g_zero_info g idx = bern idx /\ g_a g idx = gen_value bern rand idx) /\
  (forall idx, ~ 0 <= idx < Z.of_nat n ->
     g_a g idx = a0 idx /\ g_zero_info g idx = false).

(** The dense indices of the first [n] blocks, in the order the encoder
    scans them. *)
Definition block_cells (d : dims) (n : nat) : list Z :=
  flat_map (fun b => map (fun p => cell_idx d (b / K_TILES d) (b mod K_TILES d)
                                            (fst p) (snd p))
                         block_pairs)
           (range n).

(** ** Shared memory of [compute_gemm] *)

Definition SHMEM_OFFSET : Z := N * WARP_ROW_TILES.

(** Length, in [half]s, of a row of [shmem] (line 244). *)
Definition SHMEM_ROW : Z := CHUNK_K * K + SKEW_HALF.

(** [SHMEM_SZ] (lines 609-610), the bytes of shared memory [main] requests
    for [compute_gemm]; [sizeof(half)] is 2 and [sizeof(float)] is 4. *)
Definition SHMEM_SZ : Z :=
  Z.max (2 * (BLOCK_COL_TILES * M) * (CHUNK_K * K + SKEW_HALF) * 2)
        (M * (BLOCK_ROW_WARPS * WARP_ROW_TILES)
         * N * (BLOCK_COL_WARPS * WARP_COL_TILES) * 4).

Definition shmem_idx_b_off : Z := BLOCK_COL_TILES * M.

(** [shmem_warp_tile_ptr] and [shmem_warp_stream_ptr] (lines 254 and 257)
    as indices into [shmem] viewed as an array of [float].  [warpId] is
    below 8, so the [unsigned int] products are far from wrapping. *)
Definition shmem_warp_tile_ptr (warpId : Z) : Z :=
  (warpId / 2) * SHMEM_STRIDE * K * 2 + (warpId mod 2) * SHMEM_OFFSET.

Definition shmem_warp_stream_ptr (warpId : Z) : Z :=
  warpId * SHMEM_STRIDE * K.

(** Where [load_matrix_sync] and [store_matrix_sync] find element
    [(r, c)] of a 16x16 tile at [ptr] with leading dimension [ldm]. *)
Definition row_major (ptr ldm r c : Z) : Z := ptr + r * ldm + c.
Definition col_major (ptr ldm r c : Z) : Z := ptr + c * ldm + r.

(** The [int4] copies between global and shared memory that stream a
    C or D tile (lines 282-287 and 414-417), float by float: the index
    into [shmem] as floats, and the index into C or D. *)
Definition stream_cells (d : dims) (bi bj : Z) : list (Z * Z) :=
  flat_map (fun warpId =>
    flat_map (fun i =>
      flat_map (fun laneId =>
        map (fun e =>
               (shmem_warp_stream_ptr warpId + SHMEM_STRIDE * i
                + 4 * laneId + e,
                gmem_idx d bi bj warpId + GLOBAL_MEM_STRIDE d * i
                + 4 * laneId + e))
            (range 4))
        (range 32))
      (range 16))
    (range 8).

(** Streaming the C tile into shared memory (lines 282-287). *)
Definition stream_in (d : dims) (bi bj : Z) (gm : memory) (sh : Z -> Z)
  : Z -> Z :=
  fold_left (fun sh p => upd sh (fst p) (load gm (BufC, snd p)))
            (stream_cells d bi bj) sh.

(** [tile_ptr] of accumulator fragment [c[i][j]] of warp [warpId] (lines
    307 and 402). *)
Definition c_tile_ptr (warpId i j : Z) : Z :=
  shmem_warp_tile_ptr warpId + i * SHMEM_STRIDE * K + j * N.

(** [load_matrix_sync(c[i][j], tile_ptr, SHMEM_STRIDE, C_LAYOUT)] (line
    309): the fragment as a function of the element position. *)
Definition load_c_frag (sh : Z -> Z) (warpId i j : Z) : Z -> Z -> Z :=
  fun r c => sh (row_major (c_tile_ptr warpId i j) SHMEM_STRIDE r c).

(** The accumulator fragments of a block: warp, [i], [j]. *)
Definition frag_ids : list (Z * (Z * Z)) :=
  flat_map (fun w =>
    flat_map (fun i => map (fun j => (w, (i, j))) (range 4)) (range 2))
    (range 8).

(** [store_matrix_sync(tile_ptr, c[i][j], SHMEM_STRIDE, C_LAYOUT)] (line
    404) for one fragment. *)
Definition store_frag (frag : Z -> Z -> Z) (ptr ldm : Z) (sh : Z -> Z)
  : Z -> Z :=
  fold_left (fun sh p => upd sh (row_major ptr ldm (fst p) (snd p))
                             (frag (fst p) (snd p)))
            block_pairs sh.

(** Lines 393-406 for all warps of the block: [acc w i j] is fragment
    [c[i][j]] of warp [w] after the scaling by [alpha]. *)
Definition store_d_frags (acc : Z -> Z -> Z -> Z -> Z -> Z) (sh : Z -> Z)
  : Z -> Z :=
  fold_left (fun sh f =>
               store_frag (acc (fst f) (fst (snd f)) (snd (snd f)))
                          (c_tile_ptr (fst f) (fst (snd f)) (snd (snd f)))
                          SHMEM_STRIDE sh)
            frag_ids sh.

(** Streaming the D tile out of shared memory (lines 411-417). *)
Definition stream_out (d : dims) (bi bj : Z) (sh : Z -> Z) (gm : memory)
  : memory :=
  fold_left (fun m p => store m (BufD, snd p) (sh (fst p)))
            (stream_cells d bi bj) gm.

(** The warp, fragment and element that hold position [(row, col)] of the
    128x128 tile. *)
Definition frag_of (row col : Z) : Z * (Z * Z) :=
  (2 * (row / 32) + col / 64, ((row mod 32) / 16, (col mod 64) / 16)).


(** ** Staging A and B in shared memory *)

(** [&shmem[row][col]] as an index into [shmem] viewed as [half]s. *)
Definition shmem_at (row col : Z) : Z := row * SHMEM_ROW + col.

(** [shmem_idx] of a lane at the top of the copy loop (lines 337-338 and
    345). *)
Definition chunk_shmem_idx (warpId laneId : Z) : Z :=
  (if warpId <? WARPS_PER_BLOCK / 2
   then M * (warpId mod (WARPS_PER_BLOCK / 2)) * 2
   else N * (warpId mod (WARPS_PER_BLOCK / 2)) * 2 + shmem_idx_b_off)
  + laneId / CHUNK_COPY_LINE_LANES.

(** The copy loop of one lane (lines 348-355), [half] by [half]: the
    index into [shmem] and the global cell copied there. *)
Definition chunk_copy (d : dims) (bi bj warpId laneId tile_k : Z)
  : list (Z * access) :=
  let p := lane_ptr d bi bj warpId laneId tile_k in
  flat_map (fun i =>
      map (fun e =>
             (shmem_at (chunk_shmem_idx warpId laneId
                        + i * CHUNK_COPY_LINES_PER_WARP) 0
              + 8 * (laneId mod CHUNK_COPY_LINE_LANES) + e,
              (fst p,
               snd p + i * (K_GLOBAL d * CHUNK_COPY_LINES_PER_WARP) + e)))
          (range 8))
    (range 8).

(** The copies of all lanes of the block for one [tile_k]. *)
Definition block_chunk_copy (d : dims) (bi bj tile_k : Z)
  : list (Z * access) :=
  flat_map (fun warpId =>
      flat_map (fun laneId => chunk_copy d bi bj warpId laneId tile_k)
               (range 32))
    (range 8).

(** Shared memory after the chunk copy of one [tile_k] iteration. *)
Definition stage (d : dims) (bi bj tile_k : Z) (gm : memory) (sh : Z -> Z)
  : Z -> Z :=
  fold_left (fun sh s => upd sh (fst s) (load gm (snd s)))
            (block_chunk_copy d bi bj tile_k) sh.

(** The operand fragments [a[i]] and [b[j]] of warp [warpId] at
    [k_step] (lines 367-381): [a] is row-major, [b] column-major, both
    with leading dimension [K * CHUNK_K + SKEW_HALF]. *)
Definition load_a_frag (sh : Z -> Z) (warpId i k_step : Z) : Z -> Z -> Z :=
  fun r k =>
    sh (row_major (shmem_at ((warpId / 2) * M * 2 + i * M) (k_step * K))
                  (K * CHUNK_K + SKEW_HALF) r k).

Definition load_b_frag (sh : Z -> Z) (warpId j k_step : Z) : Z -> Z -> Z :=
  fun k c =>
    sh (col_major (shmem_at (shmem_idx_b_off
                             + (WARP_ROW_TILES * N) * (warpId mod 2) + j * N)
                            (k_step * K))
                  (K * CHUNK_K + SKEW_HALF) k c).

(** The pairs of operand values that the [tile_k] and [k_step] loops
    (lines 334-389) feed to [mma_sync] for element [(r, c)] of
    accumulator [c[i][j]] of warp [warpId], in the order of the loops;
    shared memory is restaged at every [tile_k]. *)
Fixpoint operand_values (d : dims) (bi bj : Z) (gm : memory)
         (warpId i j r c : Z) (tile_ks : list Z) (sh : Z -> Z)
  : list (Z * Z) :=
  match tile_ks with
  | [] => []
  | tile_k :: rest =>
      let sh' := stage d bi bj tile_k gm sh in
      flat_map (fun k_step =>
          map (fun k => (load_a_frag sh' warpId i k_step r k,
                         load_b_frag sh' warpId j k_step k c))
              (range 16))
        (range (Z.to_nat CHUNK_K))
      ++ operand_values d bi bj gm warpId i j r c rest sh'
  end.

(** Sizes whose A and B the 32-bit index arithmetic of [warp_ptr] can
    address. *)
Definition operands_addressable (d : dims) : Prop :=
  M_GLOBAL d * K_GLOBAL d <= 2 ^ 32 /\ N_GLOBAL d * K_GLOBAL d <= 2 ^ 32.

(** The global cell staged at [shmem[row][col]] during [tile_k]. *)
Definition staged_cell (d : dims) (bi bj tile_k : Z) (row col : Z) : access :=
  if row <? 128
  then (BufA, (16 * bi + row) * K_GLOBAL d + 16 * tile_k + col)
  else (BufB, (16 * bj + (row - 128)) * K_GLOBAL d + 16 * tile_k + col).

(** ** [simple_wmma_gemm] and its launch

    The kernel computes with [int]s; they are modelled as integers, and
    the theorems keep every value inside the range of [int]. *)

Definition WMMA_M : Z := 16.
Definition WMMA_N : Z := 16.

(** [warpM] and [warpN] of a thread (lines 441-442): the sums are
    [unsigned int], the results are converted to [int]. *)
Definition warpM (blockIdx_x blockDim_x threadIdx_x : Z) : Z :=
  s32 (u32 (u32 (blockIdx_x * blockDim_x) + threadIdx_x) / WARP_SIZE).

Definition warpN (blockIdx_y blockDim_y threadIdx_y : Z) : Z :=
  s32 (u32 (u32 (blockIdx_y * blockDim_y) + threadIdx_y)).




(** The check before the epilogue (line 476) and the index in C and D of
    element [(r, c)] of the warp's tile (lines 477 and 484). *)
Definition store_guard (m_ld n_ld wM wN : Z) : bool :=
  let cCol := wN * WMMA_N in
  let cRow := wM * WMMA_M in
  (cRow <? m_ld) && (cCol <? n_ld).

Definition simple_cell (n_ld wM wN r c : Z) : Z :=
  let ldc := n_ld in
  let cCol := wN * WMMA_N in
  let cRow := wM * WMMA_M in
  row_major (cCol + cRow * ldc) ldc r c.

(** The launch configuration [main] computes (lines 642-646), in
    [unsigned int] arithmetic. *)
Definition simple_blockDim_x : Z := 128.
Definition simple_blockDim_y : Z := 4.

Definition simple_gridDim_x (d : dims) : Z :=
  u32 (M_GLOBAL d + u32 (u32 (WMMA_M * simple_blockDim_x) / 32 - 1))
  / (u32 (WMMA_M * simple_blockDim_x) / 32).

Definition simple_gridDim_y (d : dims) : Z :=
  u32 (u32 (N_GLOBAL d + u32 (WMMA_N * simple_blockDim_y)) - 1)
  / u32 (WMMA_N * simple_blockDim_y).

(** A thread of the launch of [main], with the element of its warp's
    tile it is asked about: block, thread, element. *)
Record simple_thread : Type := SimpleThread {
  st_bx : Z; st_by : Z; st_tx : Z; st_ty : Z; st_r : Z; st_c : Z
}.

Definition in_launch (d : dims) (t : simple_thread) : Prop :=
  0 <= st_bx t < simple_gridDim_x d /\ 0 <= st_by t < simple_gridDim_y d /\
  0 <= st_tx t < simple_blockDim_x /\ 0 <= st_ty t < simple_blockDim_y /\
  0 <= st_r t < 16 /\ 0 <= st_c t < 16.

(** The thread's warp stores element [(r, c)] of its tile at index [x]
    of D. *)
Definition stores_at (d : dims) (t : simple_thread) (x : Z) : Prop :=
  let wM := warpM (st_bx t) simple_blockDim_x (st_tx t) in
  let wN := warpN (st_by t) simple_blockDim_y (st_ty t) in
  store_guard (M_GLOBAL d) (N_GLOBAL d) wM wN = true /\
  simple_cell (N_GLOBAL d) wM wN (st_r t) (st_c t) = x.

(** ** Device buffers of [main] *)

(** Element counts of the device buffers [main] allocates (lines
    566-576). *)
Definition device_len (d : dims) (b : buffer) : Z :=
  match b with
  | BufA | BufA_new => M_GLOBAL d * K_GLOBAL d
  | BufB | BufB_new => N_GLOBAL d * K_GLOBAL d
  | BufC | BufD => M_GLOBAL d * N_GLOBAL d
  | BufA_sparse_info | BufB_sparse_info => M_GLOBAL d * K_GLOBAL d / 32
  | BufA_tsize_info | BufB_tsize_info => N_GLOBAL d * K_GLOBAL d / (16 * 16)
  end.

(** An access inside the buffer it addresses. *)
Definition in_buffer (d : dims) (a : access) : Prop :=
  0 <= snd a < device_len d (fst a).

(** The epilogue of [simple_wmma_gemm] on one element (line 480):
    [alpha * acc + beta * c]. *)
Definition simple_epilogue (alpha beta acc c : spec_float) : spec_float :=
  f32_add (f32_mul alpha acc) (f32_mul beta c).

(** The indices of a thread's shared-memory writes in [compute_gemm]:
    stream-in of C as lane [l] of warp [w] at row [i], element [e] of the
    [int4]; chunk copy at iteration [i], element [e]; fragment store of
    element [(r, c)] of [c[i][j]]. *)
Definition stream_write (w i l e : Z) : Z :=
  shmem_warp_stream_ptr w + SHMEM_STRIDE * i + 4 * l + e.

Definition copy_write (w l i e : Z) : Z :=
  shmem_at (chunk_shmem_idx w l + i * CHUNK_COPY_LINES_PER_WARP) 0
  + 8 * (l mod CHUNK_COPY_LINE_LANES) + e.

Definition frag_write (w i j r c : Z) : Z :=
  row_major (c_tile_ptr w i j) SHMEM_STRIDE r c.

(* ================================================================== *)
(** * Theorems *)
(* ================================================================== *)

(** ** Scheduler arithmetic *)

Lemma u32_small z : 0 <= z < 2 ^ 32 -> u32 z = z.
Proof. intros H. unfold u32. apply Z.mod_small. exact H. Qed.

Section Scheduler.
Variable d : dims.
Variables m n : Z.
Hypothesis Hm : 0 < m.
Hypothesis Hn : 0 < n.
Hypothesis HM : M_TILES d = 8 * m.
Hypothesis HN : N_TILES d = 8 * n.

Lemma num_block_tiles_eq : num_block_tiles d = m * n.
Proof.
  unfold num_block_tiles. rewrite HM, HN.
  change BLOCK_COL_TILES with 8. change BLOCK_ROW_TILES with 8.
  rewrite !(Z.mul_comm 8), !Z.div_mul by lia. reflexivity.
Qed.

Lemma block_tile_i_eq p :
  0 <= p -> 8 * p < 2 ^ 32 -> block_tile_i d p = 8 * (p / n).
Proof.
  intros H0 H1. unfold block_tile_i.
  change BLOCK_ROW_TILES with 8. change BLOCK_COL_TILES with 8.
  rewrite (u32_small (p * 8)) by lia. rewrite HN.
  rewrite (Z.mul_comm p 8), Z.div_mul_cancel_l by lia.
  assert (0 <= p / n <= p).
  { split; [apply Z.div_pos; lia|].
    apply Z.div_le_upper_bound; nia. }
  rewrite u32_small by lia. lia.
Qed.

Lemma block_tile_j_eq p :
  0 <= p -> 8 * p < 2 ^ 32 -> block_tile_j d p = 8 * (p mod n).
Proof.
  intros H0 H1. unfold block_tile_j. change BLOCK_COL_TILES with 8.
  rewrite (u32_small (p * 8)) by lia. rewrite HN.
  rewrite (Z.mul_comm p 8), Z.mul_mod_distr_l by lia. reflexivity.
Qed.

Lemma break_iff p :
  0 <= p -> 8 * p < 2 ^ 32 ->
  (M_TILES d <=? block_tile_i d p) = (m * n <=? p).
Proof.
  intros H0 H1. rewrite block_tile_i_eq, HM by assumption.
  destruct (Z.leb_spec (m * n) p) as [H|H].
  - apply Z.leb_le.
    assert (m <= p / n) by (apply Z.div_le_lower_bound; lia). lia.
  - apply Z.leb_gt.
    assert (p / n < m) by (apply Z.div_lt_upper_bound; lia). lia.
Qed.

Variable G : Z.
Hypothesis HG : 1 <= G.
Hypothesis Hwrap : 8 * (m * n + G) <= 2 ^ 32.

Lemma block_loop_spec fuel : forall p,
  0 <= p < m * n + G -> 0 < Z.of_nat fuel -> m * n - p < Z.of_nat fuel ->
  block_loop fuel d G p =
  Some (map (tile_of d) (stride_positions fuel (m * n) G p)).
Proof.
  induction fuel as [|fuel IH]; intros p Hp Hf0 Hf.
  - lia.
  - cbn [block_loop stride_positions].
    rewrite break_iff by lia.
    destruct (Z.leb_spec (m * n) p) as [H|H]; [reflexivity|].
    rewrite (u32_small (p + G)) by lia.
    rewrite IH by lia. reflexivity.
Qed.

Lemma stride_positions_sound fuel : forall p q,
  In q (stride_positions fuel (m * n) G p) ->
  p <= q < m * n /\ exists k, 0 <= k /\ q = p + k * G.
Proof.
  induction fuel as [|fuel IH]; intros p q Hin; cbn in Hin.
  - contradiction.
  - destruct (Z.leb_spec (m * n) p) as [H|H]; [contradiction|].
    destruct Hin as [<-|Hin].
    + split; [lia|]. exists 0. lia.
    + apply IH in Hin. destruct Hin as [Hr [k [Hk ->]]].
      split; [lia|]. exists (k + 1). lia.
Qed.

Lemma stride_positions_complete fuel : forall p k,
  0 <= k -> p + k * G < m * n -> m * n - p < Z.of_nat fuel ->
  In (p + k * G) (stride_positions fuel (m * n) G p).
Proof.
  induction fuel as [|fuel IH]; intros p k Hk Hlt Hf.
  - nia.
  - cbn. destruct (Z.leb_spec (m * n) p) as [H|H]; [nia|].
    destruct (Z.eq_dec k 0) as [->|Hk0]; [left; lia|].
    right. replace (p + k * G) with ((p + G) + (k - 1) * G) by lia.
    apply IH; lia.
Qed.

Lemma stride_positions_NoDup fuel : forall p,
  NoDup (stride_positions fuel (m * n) G p).
Proof.
  induction fuel as [|fuel IH]; intros p; cbn.
  - constructor.
  - destruct (Z.leb_spec (m * n) p) as [H|H]; [constructor|].
    constructor; [|apply IH].
    intros Hin. apply stride_positions_sound in Hin. lia.
Qed.

(** Every position visited by any block, in block order. *)
Lemma all_positions_in fuel q :
  m * n < Z.of_nat fuel ->
  In q (flat_map (fun b => stride_positions fuel (m * n) G (Z.of_nat b))
                 (seq 0 (Z.to_nat G)))
  <-> 0 <= q < m * n.
Proof.
  intros Hf. rewrite in_flat_map. split.
  - intros [b [_ Hin]]. apply stride_positions_sound in Hin. lia.
  - intros Hq. exists (Z.to_nat (q mod G)).
    assert (0 <= q mod G < G) by (apply Z.mod_pos_bound; lia).
    split; [apply in_seq; lia|].
    rewrite Z2Nat.id by lia.
    assert (E : q = q mod G + q / G * G)
      by (pose proof (Z.div_mod q G); lia).
    set (b := q mod G) in *. set (k := q / G) in *.
    assert (0 <= k) by (apply Z.div_pos; lia).
    rewrite E. apply stride_positions_complete; lia.
Qed.

Lemma NoDup_flat_map {A B} (f : A -> list B) (l : list A) :
  NoDup l ->
  (forall a, In a l -> NoDup (f a)) ->
  (forall a a' x, In a l -> In a' l -> In x (f a) -> In x (f a') -> a = a') ->
  NoDup (flat_map f l).
Proof.
  induction l as [|a l IH]; intros Hnd Hf Hdis; cbn.
  - constructor.
  - inversion Hnd as [|? ? Hnotin Hnd']; subst.
    apply NoDup_app.
    + apply Hf. now left.
    + apply IH; auto.
      * intros; apply Hf; now right.
      * intros a1 a2 x H1 H2; apply Hdis; now right.
    + intros x Hx Hx'. apply in_flat_map in Hx'.
      destruct Hx' as [a' [Ha' Hxa']].
      assert (a = a') by (apply (Hdis a a' x); auto; [now left|now right]).
      subst. contradiction.
Qed.

Lemma all_positions_NoDup fuel :
  NoDup (flat_map (fun b => stride_positions fuel (m * n) G (Z.of_nat b))
                  (seq 0 (Z.to_nat G))).
Proof.
  apply NoDup_flat_map.
  - apply seq_NoDup.
  - intros; apply stride_positions_NoDup.
  - intros b b' q Hb Hb' H1 H2.
    apply in_seq in Hb, Hb'.
    apply stride_positions_sound in H1, H2.
    destruct H1 as [_ [k [Hk E1]]], H2 as [_ [k' [Hk' E2]]].
    assert (Z.of_nat b = Z.of_nat b'); [|lia].
    assert (E : Z.of_nat b + k * G = Z.of_nat b' + k' * G) by lia.
    apply (f_equal (fun z => z mod G)) in E.
    rewrite !Z.mod_add, !Z.mod_small in E by lia. exact E.
Qed.

Lemma tile_of_eq p :
  0 <= p < m * n -> tile_of d p = (8 * (p / n), 8 * (p mod n)).
Proof.
  intros Hp. unfold tile_of.
  rewrite block_tile_i_eq, block_tile_j_eq by lia. reflexivity.
Qed.

Lemma tile_of_inj p q :
  0 <= p < m * n -> 0 <= q < m * n -> tile_of d p = tile_of d q -> p = q.
Proof.
  intros Hp Hq E. rewrite !tile_of_eq in E by assumption.
  assert (E1 : 8 * (p / n) = 8 * (q / n)) by congruence.
  assert (E2 : 8 * (p mod n) = 8 * (q mod n)) by congruence.
  pose proof (Z.div_mod p n). pose proof (Z.div_mod q n). lia.
Qed.

Lemma tile_of_output p : 0 <= p < m * n -> is_output_tile d (tile_of d p).
Proof.
  intros Hp. rewrite tile_of_eq by assumption. unfold is_output_tile.
  cbn [fst snd]. rewrite HM, HN.
  change BLOCK_COL_TILES with 8. change BLOCK_ROW_TILES with 8.
  assert (0 <= p / n < m).
  { split; [apply Z.div_pos; lia|apply Z.div_lt_upper_bound; lia]. }
  assert (0 <= p mod n < n) by (apply Z.mod_pos_bound; lia).
  rewrite !(Z.mul_comm 8), !Z.mod_mul by lia. lia.
Qed.

Lemma output_tile_of t :
  is_output_tile d t -> exists p, 0 <= p < m * n /\ tile_of d p = t.
Proof.
  destruct t as [i j]. unfold is_output_tile. cbn [fst snd].
  rewrite HM, HN. change BLOCK_COL_TILES with 8. change BLOCK_ROW_TILES with 8.
  intros (Hi & Hj & Hi8 & Hj8).
  apply Z.mod_divide in Hi8, Hj8; try lia.
  destruct Hi8 as [r ->], Hj8 as [c ->].
  exists (r * n + c). split; [nia|].
  rewrite tile_of_eq by nia.
  assert (E1 : (r * n + c) / n = r).
  { rewrite Z.add_comm, Z.div_add by lia. rewrite Z.div_small by lia. lia. }
  assert (E2 : (r * n + c) mod n = c).
  { rewrite Z.add_comm, Z.mod_add by lia. apply Z.mod_small. lia. }
  rewrite E1, E2. f_equal; lia.
Qed.

(** The schedule of a whole launch, for a grid that does not wrap. *)
Lemma grid_schedule_spec :
  let fuel := S (Z.to_nat (m * n)) in
  let ls := map (fun b => map (tile_of d)
                   (stride_positions fuel (m * n) G (Z.of_nat b)))
                (seq 0 (Z.to_nat G)) in
  grid_schedule fuel d G = map Some ls /\
  NoDup (concat ls) /\
  (forall t, In t (concat ls) <-> is_output_tile d t).
Proof.
  intros fuel ls.
  assert (Hfuel : m * n < Z.of_nat fuel) by (unfold fuel; nia).
  assert (Ecat : concat ls =
    map (tile_of d)
      (flat_map (fun b => stride_positions fuel (m * n) G (Z.of_nat b))
                (seq 0 (Z.to_nat G)))).
  { unfold ls. rewrite flat_map_concat_map, concat_map, map_map. reflexivity. }
  split; [|split].
  - unfold grid_schedule, ls. rewrite map_map. apply map_ext_in.
    intros b Hb. apply in_seq in Hb. apply block_loop_spec; lia.
  - rewrite Ecat. apply NoDup_map_NoDup_ForallPairs.
    + intros p q Hp Hq. apply all_positions_in in Hp, Hq; try assumption.
      now apply tile_of_inj.
    + apply all_positions_NoDup.
  - intros t. rewrite Ecat, in_map_iff. split.
    + intros [p [<- Hp]]. apply all_positions_in in Hp; [|assumption].
      now apply tile_of_output.
    + intros Ht. destruct (output_tile_of t Ht) as [p [Hp E]].
      exists p. split; [assumption|]. now apply all_positions_in.
Qed.
End Scheduler.

(** ** Lists of loop indices *)

Lemma in_range n z : In z (range n) <-> 0 <= z < Z.of_nat n.
Proof.
  unfold range. rewrite in_map_iff. split.
  - intros [k [<- Hk]]. apply in_seq in Hk. lia.
  - intros Hz. exists (Z.to_nat z). split; [lia|]. apply in_seq. lia.
Qed.

Lemma NoDup_range n : NoDup (range n).
Proof.
  unfold range. apply NoDup_map_NoDup_ForallPairs; [|apply seq_NoDup].
  intros a b _ _ E. lia.
Qed.


(** ** Memory *)






Section KernelFacts.
Variable tile_loads : dims -> Z -> Z -> list access.
Variable datapath : list Z -> Z -> Z -> Z * Z -> Z.
Variable d : dims.
Variables alpha beta : Z.





End KernelFacts.

(** ** The cells of the output tiles *)

Lemma tile_cells_in d bi bj c :
  In c (tile_cells d bi bj) <->
  exists w i l e,
    0 <= w < 8 /\ 0 <= i < 16 /\ 0 <= l < 32 /\ 0 <= e < 4 /\
    c = (gmem_idx d bi bj w + GLOBAL_MEM_STRIDE d * i + 4 * l + e,
         (16 * w + i, 4 * l + e)).
Proof.
  unfold tile_cells. split.
  - intros H.
    apply in_flat_map in H. destruct H as [w [Hw H]].
    apply in_flat_map in H. destruct H as [i [Hi H]].
    apply in_flat_map in H. destruct H as [l [Hl H]].
    apply in_map_iff in H. destruct H as [e [<- He]].
    apply in_range in Hw, Hi, Hl, He.
    exists w, i, l, e. repeat split; lia.
  - intros (w & i & l & e & Hw & Hi & Hl & He & ->).
    apply in_flat_map. exists w. split; [apply in_range; lia|].
    apply in_flat_map. exists i. split; [apply in_range; lia|].
    apply in_flat_map. exists l. split; [apply in_range; lia|].
    apply in_map_iff. exists e. split; [reflexivity|apply in_range; lia].
Qed.

Section OutputCells.
Variable d : dims.
Variables m n : Z.
Hypothesis Hm : 0 < m.
Hypothesis Hn : 0 < n.
Hypothesis HM : M_TILES d = 8 * m.
Hypothesis HN : N_TILES d = 8 * n.
Hypothesis Hsize : M_GLOBAL d * N_GLOBAL d <= 2 ^ 32.

Lemma NG_eq : N_GLOBAL d = 128 * n.
Proof. unfold N_GLOBAL. rewrite HN. change N with 16. lia. Qed.

Lemma MG_eq : M_GLOBAL d = 128 * m.
Proof. unfold M_GLOBAL. rewrite HM. change M with 16. lia. Qed.

Lemma output_tile_rc t :
  is_output_tile d t <->
  exists r c, 0 <= r < m /\ 0 <= c < n /\ t = (8 * r, 8 * c).
Proof.
  destruct t as [i j]. unfold is_output_tile. cbn [fst snd].
  rewrite HM, HN. change BLOCK_COL_TILES with 8. change BLOCK_ROW_TILES with 8.
  split.
  - intros (Hi & Hj & Hi8 & Hj8).
    apply Z.mod_divide in Hi8, Hj8; try lia.
    destruct Hi8 as [r ->], Hj8 as [c ->].
    exists r, c. repeat split; try lia. f_equal; lia.
  - intros (r & c & Hr & Hc & E).
    assert (Ei : i = 8 * r) by congruence.
    assert (Ej : j = 8 * c) by congruence. subst i j.
    rewrite (Z.mul_comm 8 r), (Z.mul_comm 8 c), !Z.mod_mul by lia. lia.
Qed.

Lemma gmem_idx_eq r c w :
  0 <= r < m -> 0 <= c < n -> 0 <= w < 8 ->
  gmem_idx d (8 * r) (8 * c) w = (128 * r + 16 * w) * (128 * n) + 128 * c.
Proof.
  intros Hr Hc Hw. unfold gmem_idx, GLOBAL_MEM_STRIDE.
  rewrite NG_eq. change M with 16. change N with 16.
  rewrite NG_eq, MG_eq in Hsize.
  assert (H1 : (128 * r + 16 * w) * (128 * n) <= (128 * m - 16) * (128 * n))
    by (apply Z.mul_le_mono_nonneg_r; lia).
  assert (H2 : 0 <= (128 * r + 16 * w) * (128 * n)) by nia.
  assert (H3 : 128 * m <= 128 * m * (128 * n)) by nia.
  rewrite (u32_small (8 * r + w)) by lia.
  rewrite (u32_small ((8 * r + w) * 16)) by lia.
  replace ((8 * r + w) * 16) with (128 * r + 16 * w) by lia.
  rewrite (u32_small ((128 * r + 16 * w) * (128 * n))) by lia.
  rewrite (u32_small (8 * c * 16)) by nia.
  rewrite u32_small by nia. lia.
Qed.



End OutputCells.

(** ** The store trace of a launch *)

Section Launch.
Variable d : dims.
Variables m n : Z.
Hypothesis Hm : 0 < m.
Hypothesis Hn : 0 < n.
Hypothesis HM : M_TILES d = 8 * m.
Hypothesis HN : N_TILES d = 8 * n.
Hypothesis Hsize : M_GLOBAL d * N_GLOBAL d <= 2 ^ 32.
Variable G : Z.
Hypothesis HG : 1 <= G.
Hypothesis Hwrap : 8 * (m * n + G) <= 2 ^ 32.




End Launch.

(** ** Legal sizes and launches *)

Lemma src_dims_legal : legal_dims src_dims.
Proof.
  unfold legal_dims. cbn.
  repeat split; try (exists 32; lia). discriminate.
Qed.

Lemma num_block_tiles_src : num_block_tiles src_dims = 1024.
Proof. reflexivity. Qed.


Lemma legal_dims_inv d :
  legal_dims d ->
  exists m n, 0 < m /\ 0 < n /\ M_TILES d = 8 * m /\ N_TILES d = 8 * n /\
              M_GLOBAL d * N_GLOBAL d <= 2 ^ 32 /\ num_block_tiles d = m * n.
Proof.
  intros ((m & Hm & HM) & (n & Hn & HN) & _ & Hsize).
  exists m, n. repeat split; try assumption.
  now apply num_block_tiles_eq.
Qed.

(** ** The scheduler: partition and termination *)

(** C4 (as amended): for every legal size and every number of thread
    blocks from 1 up to the largest grid whose position arithmetic does
    not exceed 32 bits, all block loops finish and the tiles they are
    assigned, taken over all blocks, are exactly the 128x128 output tiles
    of D, none assigned twice and none omitted. *)
Theorem tile_partition d gridDim :
  legal_dims d -> 1 <= gridDim -> no_wrap d gridDim ->
  exists fuel ls,
    grid_schedule fuel d gridDim = map Some ls /\
    NoDup (concat ls) /\
    (forall t, In t (concat ls) <-> is_output_tile d t).
Proof.
  intros Hd HG Hw.
  destruct (legal_dims_inv d Hd) as (m & n & Hm & Hn & HM & HN & _ & HT).
  unfold no_wrap in Hw. rewrite HT in Hw. change BLOCK_ROW_TILES with 8 in Hw.
  pose proof (grid_schedule_spec d m n Hm Hn HM HN gridDim HG Hw) as H.
  cbv zeta in H. eauto.
Qed.

Lemma tile_partition_witness :
  exists fuel ls,
    grid_schedule fuel src_dims 80 = map Some ls /\
    NoDup (concat ls) /\
    (forall t, In t (concat ls) <-> is_output_tile src_dims t).
Proof.
  apply (tile_partition src_dims 80).
  - exact src_dims_legal.
  - lia.
  - unfold no_wrap. rewrite num_block_tiles_src. vm_compute. discriminate.
Defined.

(** C4 as stated fails once the grid is large enough for the 32-bit
    product [block_pos * BLOCK_ROW_TILES] to wrap: in a launch of
    2^29 + 1 blocks, block 0 and block 1 are both assigned the output
    tile (0, 8). *)
Lemma tile_partition_wraps :
  exists l0 l1,
    block_loop 1025 src_dims (2 ^ 29 + 1) 0 = Some l0 /\
    block_loop 1025 src_dims (2 ^ 29 + 1) 1 = Some l1 /\
    In (0, 8) l0 /\ In (0, 8) l1.
Proof.
  eexists. eexists.
  split; [vm_compute; reflexivity|].
  split; [vm_compute; reflexivity|].
  split; [right; left; reflexivity|left; reflexivity].
Qed.





(** ** Global-memory effect of [compute_gemm] *)



(** ** Counted loops *)

Lemma range_S n : range (S n) = range n ++ [Z.of_nat n].
Proof. unfold range. rewrite seq_S, map_app. reflexivity. Qed.

Lemma for_loop_S {S} n (body : Z -> S -> S) s :
  for_loop (Datatypes.S n) body s = body (Z.of_nat n) (for_loop n body s).
Proof. unfold for_loop. rewrite range_S, fold_left_app. reflexivity. Qed.

Lemma for_loop_inv {S} (P : nat -> S -> Prop) n (body : Z -> S -> S) s :
  P O s ->
  (forall k s, (k < n)%nat -> P k s ->
               P (Datatypes.S k) (body (Z.of_nat k) s)) ->
  P n (for_loop n body s).
Proof.
  intros H0 Hstep. induction n as [|n IH]; [exact H0|].
  rewrite for_loop_S. apply Hstep; [lia|]. apply IH.
  intros k s' Hk. apply Hstep. lia.
Qed.

Lemma fold_left_flat_map {A B S} (g : S -> B -> S) (h : A -> list B) l :
  forall s,
  fold_left g (flat_map h l) s = fold_left (fun s x => fold_left g (h x) s) l s.
Proof.
  induction l as [|x l IH]; intros s; cbn [flat_map fold_left]; [reflexivity|].
  rewrite fold_left_app. apply IH.
Qed.

Lemma fold_left_map {A B S} (g : S -> B -> S) (h : A -> B) l :
  forall s, fold_left g (map h l) s = fold_left (fun s x => g s (h x)) l s.
Proof.
  induction l as [|x l IH]; intros s; cbn [map fold_left]; [reflexivity|].
  apply IH.
Qed.

Lemma fold_left_same {A S} (f g : S -> A -> S) l :
  (forall s x, f s x = g s x) ->
  forall s, fold_left f l s = fold_left g l s.
Proof.
  intros E. induction l as [|x l IH]; intros s; cbn [fold_left]; [reflexivity|].
  rewrite E. apply IH.
Qed.

(** Two nested counted loops run their body over the pairs of indices in
    lexicographic order. *)
Lemma for_loop_pairs {S} a b (f : Z -> Z -> S -> S) s :
  for_loop a (fun x => for_loop b (f x)) s =
  fold_left (fun s p => f (fst p) (snd p) s)
            (flat_map (fun x => map (pair x) (range b)) (range a)) s.
Proof.
  unfold for_loop. rewrite fold_left_flat_map.
  apply fold_left_same. intros s' x. rewrite fold_left_map. reflexivity.
Qed.

Lemma upd_same {V} (f : Z -> V) i v : upd f i v i = v.
Proof. unfold upd. now rewrite Z.eqb_refl. Qed.

Lemma upd_other {V} (f : Z -> V) i v k : k <> i -> upd f i v k = f k.
Proof. unfold upd. intros H. apply Z.eqb_neq in H. now rewrite H. Qed.

Lemma block_pairs_in p :
  In p block_pairs <-> 0 <= fst p < 16 /\ 0 <= snd p < 16.
Proof.
  unfold block_pairs. rewrite in_flat_map. split.
  - intros [ii [Hii Hp]]. apply in_map_iff in Hp. destruct Hp as [jj [<- Hjj]].
    apply in_range in Hii, Hjj. cbn [fst snd]. lia.
  - intros [Hi Hj]. exists (fst p). split; [apply in_range; lia|].
    apply in_map_iff. exists (snd p).
    split; [now destruct p|apply in_range; lia].
Qed.

(** ** Bit arithmetic of the mask words *)

Lemma s32_bit s b :
  0 <= s < 32 -> 0 <= b < 32 ->
  Z.testbit (s32 (Z.shiftl 1 s)) b = (s =? b).
Proof.
  intros Hs Hb. rewrite Z.shiftl_1_l.
  destruct (Z.eq_dec s 31) as [->|Hne].
  - change (s32 (2 ^ 31)) with (- 2 ^ 31).
    rewrite Z.bits_opp by lia.
    change (Z.pred (2 ^ 31)) with (Z.ones 31).
    rewrite Z.testbit_ones_nonneg by lia.
    destruct (Z.ltb_spec b 31), (Z.eqb_spec 31 b); cbn; try reflexivity; lia.
  - assert (E : s32 (2 ^ s) = 2 ^ s).
    { unfold s32.
      assert (0 < 2 ^ s) by (apply Z.pow_pos_nonneg; lia).
      assert (2 ^ s <= 2 ^ 30) by (apply Z.pow_le_mono_r; lia).
      rewrite Z.mod_small; lia. }
    rewrite E. apply Z.pow2_bits_eqb. lia.
Qed.

(** ** The inner loops of the encoder *)

Section EncodeCells.
Variable d : dims.
Variable zero_info : Z -> bool.
Variable src : Z -> Z.
Variables i j : Z.
Variable new0 : Z -> Z.
Variables n0 c0 : Z.

Lemma flagged_vals_snoc done p :
  flagged_vals d zero_info src i j (done ++ [p]) =
  flagged_vals d zero_info src i j done ++
  (if cell_flag d zero_info i j p then [cell_val d src i j p] else []).
Proof.
  unfold flagged_vals. rewrite filter_app, map_app. cbn [filter].
  destruct (cell_flag d zero_info i j p); reflexivity.
Qed.

Lemma elem_inv_init :
  elem_inv d zero_info src i j new0 n0 c0 []
           (BlockState new0 n0 (fun _ => 0) c0).
Proof.
  unfold elem_inv, flagged_vals.
  cbn [filter map length bs_count_info bs_new_count bs_new bs_sparse_info
       existsb].
  split; [lia|]. split; [lia|]. split; [reflexivity|]. split.
  - intros k Hk. inversion Hk.
  - intros w b _. apply Z.bits_0.
Qed.

Lemma elem_inv_step done bs p :
  0 <= fst p < 16 -> 0 <= snd p < 16 ->
  elem_inv d zero_info src i j new0 n0 c0 done bs ->
  elem_inv d zero_info src i j new0 n0 c0 (done ++ [p])
           (encode_step d zero_info src i j bs p).
Proof.
  intros Hi Hj (Hc & Hn & Hframe & Hvals & Hbits).
  unfold encode_step, encode_elem.
  fold (cell_flag d zero_info i j p). fold (cell_val d src i j p).
  unfold elem_inv. rewrite flagged_vals_snoc.
  destruct (cell_flag d zero_info i j p) eqn:Ef.
  - cbn [bs_count_info bs_new_count bs_new bs_sparse_info].
    rewrite length_app. cbn [length].
    split; [lia|]. split; [lia|]. split; [|split].
    + intros q Hq. rewrite upd_other by lia. now apply Hframe.
    + intros k Hk.
      destruct (Nat.lt_ge_cases k
                  (length (flagged_vals d zero_info src i j done)))
        as [Hlt|Hge].
      * rewrite upd_other by lia. rewrite app_nth1 by assumption.
        now apply Hvals.
      * assert (k = length (flagged_vals d zero_info src i j done)) by lia.
        subst k. rewrite Hn, upd_same, app_nth2 by lia.
        rewrite Nat.sub_diag. reflexivity.
    + intros w b Hb. rewrite existsb_app. cbn [existsb].
      rewrite Ef, orb_false_r. unfold same_bit. cbn [andb].
      destruct (Z.eqb_spec (fst p / 2) w) as [<-|Hne].
      * rewrite upd_same, Z.lor_spec, Hbits by assumption.
        rewrite s32_bit; [reflexivity| |assumption].
        assert (0 <= fst p mod 2 < 2) by (apply Z.mod_pos_bound; lia). lia.
      * rewrite upd_other by congruence. rewrite Hbits by assumption.
        cbn [andb]. now rewrite orb_false_r.
  - rewrite app_nil_r. split; [exact Hc|]. split; [exact Hn|].
    split; [exact Hframe|]. split; [exact Hvals|].
    intros w b Hb. rewrite existsb_app. cbn [existsb].
    rewrite Ef. cbn [andb]. rewrite !orb_false_r. now apply Hbits.
Qed.

Lemma elem_inv_fold todo : forall done bs,
  (forall p, In p todo -> 0 <= fst p < 16 /\ 0 <= snd p < 16) ->
  elem_inv d zero_info src i j new0 n0 c0 done bs ->
  elem_inv d zero_info src i j new0 n0 c0 (done ++ todo)
           (fold_left (encode_step d zero_info src i j) todo bs).
Proof.
  induction todo as [|p todo IH]; intros done bs Hb Hinv; cbn [fold_left].
  - now rewrite app_nil_r.
  - replace (done ++ p :: todo) with ((done ++ [p]) ++ todo)
      by (rewrite <- app_assoc; reflexivity).
    apply IH; [intros; apply Hb; now right|].
    apply elem_inv_step; [apply Hb; now left..|assumption].
Qed.
End EncodeCells.

Lemma encode_cells_spec d zero_info src i j s :
  elem_inv d zero_info src i j (new_vals s) (new_count s) (count_info s)
           block_pairs (encode_cells d zero_info src i j s).
Proof.
  unfold encode_cells. rewrite for_loop_pairs.
  exact (elem_inv_fold d zero_info src i j (new_vals s) (new_count s)
           (count_info s) block_pairs [] _
           (fun p Hp => proj1 (block_pairs_in p) Hp)
           (elem_inv_init d zero_info src i j _ _ _)).
Qed.

Lemma existsb_unique {A} (f g : A -> bool) (l : list A) (p : A) :
  In p l -> g p = true ->
  (forall q, In q l -> g q = true -> q = p) ->
  existsb (fun q => f q && g q) l = f p.
Proof.
  intros Hp Hg Huniq. destruct (f p) eqn:Ef.
  - apply existsb_exists. exists p. rewrite Ef, Hg. auto.
  - destruct (existsb (fun q => f q && g q) l) eqn:E; [|reflexivity].
    apply existsb_exists in E. destruct E as [q [Hq Hfg]].
    apply andb_true_iff in Hfg. destruct Hfg as [Hf Hgq].
    rewrite (Huniq q Hq Hgq) in Hf. congruence.
Qed.

(** After the inner loops, the bit a position owns holds its flag. *)
Lemma encode_cells_bit d zero_info src i j s p :
  In p block_pairs ->
  mask_bit (bs_sparse_info (encode_cells d zero_info src i j s)) p
  = cell_flag d zero_info i j p.
Proof.
  intros Hp. pose proof (proj1 (block_pairs_in p) Hp) as [Hi Hj].
  destruct (encode_cells_spec d zero_info src i j s) as (_ & _ & _ & _ & Hbits).
  unfold mask_bit. rewrite Hbits.
  - apply existsb_unique; [assumption| |].
    + unfold same_bit. now rewrite !Z.eqb_refl.
    + intros q Hq Hs. apply block_pairs_in in Hq. destruct Hq as [Hqi Hqj].
      unfold same_bit in Hs. apply andb_true_iff in Hs.
      destruct Hs as [H1 H2]. apply Z.eqb_eq in H1, H2.
      destruct p as [pi pj], q as [qi qj]. cbn [fst snd] in *.
      f_equal; Z.div_mod_to_equations; lia.
  - assert (0 <= fst p mod 2 < 2) by (apply Z.mod_pos_bound; lia). lia.
Qed.

Lemma for_loop_upd n base (g : Z -> Z) tab x :
  for_loop n (fun k tab => upd tab (base + k) (g k)) tab x =
  if (base <=? x) && (x <? base + Z.of_nat n) then g (x - base) else tab x.
Proof.
  induction n as [|n IH].
  - cbn. destruct (base <=? x) eqn:E1; [|reflexivity].
    destruct (Z.ltb_spec x (base + 0)); [|reflexivity].
    apply Z.leb_le in E1. lia.
  - rewrite for_loop_S. unfold upd at 1.
    destruct (Z.eqb_spec x (base + Z.of_nat n)) as [->|Hne].
    + replace (base + Z.of_nat n - base) with (Z.of_nat n) by lia.
      destruct (Z.leb_spec base (base + Z.of_nat n)); [|lia].
      destruct (Z.ltb_spec (base + Z.of_nat n) (base + Z.of_nat (S n)));
        [reflexivity|lia].
    + rewrite IH.
      destruct (Z.leb_spec base x); cbn [andb]; [|reflexivity].
      destruct (Z.ltb_spec x (base + Z.of_nat n)),
               (Z.ltb_spec x (base + Z.of_nat (S n))); try reflexivity; lia.
Qed.

(** ** The block loops of the encoder *)

Section EncodePass.
Variable d : dims.
Variable zero_info : Z -> bool.
Variable src : Z -> Z.
Hypothesis HK : 0 < K_TILES d.

Lemma prefix_count_mono a : forall b,
  (a <= b)%nat ->
  prefix_count d zero_info src a <= prefix_count d zero_info src b.
Proof.
  induction b as [|b IH]; intros Hab.
  - assert (a = O) by lia. subst. lia.
  - destruct (Nat.eq_dec a (S b)) as [->|Hne]; [lia|].
    cbn [prefix_count]. specialize (IH ltac:(lia)). lia.
Qed.

Lemma block_number i j :
  i * K_GLOBAL d / TILING_SIZE + j = i * K_TILES d + j.
Proof.
  unfold K_GLOBAL. change K with 16. change TILING_SIZE with 16.
  replace (i * (16 * K_TILES d)) with (i * K_TILES d * 16) by lia.
  rewrite Z.div_mul by lia. reflexivity.
Qed.

Lemma pass_inv_init new0 sparse0 tsize0 :
  pass_inv d zero_info src O (EncState new0 0 sparse0 tsize0 0).
Proof.
  unfold pass_inv. cbn [count_info new_count prefix_count].
  repeat split; intros; lia.
Qed.

Lemma pass_inv_step n i j st :
  0 <= i -> 0 <= j < K_TILES d -> Z.of_nat n = i * K_TILES d + j ->
  pass_inv d zero_info src n st ->
  pass_inv d zero_info src (S n) (encode_block d zero_info src i j st).
Proof.
  intros Hi Hj En (Hc & Hn & Hts & Hsp & Hnv).
  assert (Ei : Z.of_nat n / K_TILES d = i).
  { rewrite En, Z.add_comm, Z.div_add by lia. rewrite Z.div_small; lia. }
  assert (Ej : Z.of_nat n mod K_TILES d = j).
  { rewrite En, Z.add_comm, Z.mod_add by lia. apply Z.mod_small. lia. }
  destruct (encode_cells_spec d zero_info src i j st)
    as (Bc & Bn & Bframe & Bvals & _).
  assert (Ev : flagged_vals d zero_info src i j block_pairs
               = blk_vals d zero_info src (Z.of_nat n)).
  { unfold blk_vals. now rewrite Ei, Ej. }
  rewrite Ev in Bc, Bn, Bvals.
  unfold pass_inv, encode_block.
  cbn [count_info new_count tsize_tab sparse_tab new_vals prefix_count].
  rewrite block_number, <- En.
  split; [lia|]. split; [lia|]. split; [|split].
  - intros b Hb. destruct (Nat.eq_dec b n) as [->|Hne].
    + rewrite upd_same. cbn [prefix_count]. lia.
    + rewrite upd_other by lia. apply Hts. lia.
  - intros b p Hb Hp. pose proof (proj1 (block_pairs_in p) Hp) as [Hpi Hpj].
    unfold mask_bit at 1. rewrite for_loop_upd.
    assert (0 <= fst p / 2 < 8).
    { split; [apply Z.div_pos; lia|apply Z.div_lt_upper_bound; lia]. }
    destruct (Nat.eq_dec b n) as [->|Hne].
    + destruct (Z.leb_spec (Z.of_nat n * 8) (Z.of_nat n * 8 + fst p / 2));
        [|lia].
      destruct (Z.ltb_spec (Z.of_nat n * 8 + fst p / 2)
                           (Z.of_nat n * 8 + Z.of_nat 8)); [|lia].
      cbn [andb].
      replace (Z.of_nat n * 8 + fst p / 2 - Z.of_nat n * 8)
        with (fst p / 2) by lia.
      fold (mask_bit (bs_sparse_info (encode_cells d zero_info src i j st)) p).
      rewrite encode_cells_bit by assumption.
      unfold blk_flag. now rewrite Ei, Ej.
    + destruct (Z.leb_spec (Z.of_nat n * 8) (Z.of_nat b * 8 + fst p / 2));
        [lia|].
      cbn [andb]. apply (Hsp b p); [lia|assumption].
  - intros b k Hb Hk. destruct (Nat.eq_dec b n) as [->|Hne].
    + rewrite <- Hn. now apply Bvals.
    + assert (Hlt : (b < n)%nat) by lia.
      rewrite Bframe; [now apply Hnv|].
      rewrite Hn.
      pose proof (prefix_count_mono (S b) n ltac:(lia)) as Hm.
      cbn [prefix_count] in Hm. lia.
Qed.

Lemma encode_pass_inv new0 sparse0 tsize0 :
  0 <= M_TILES d ->
  pass_inv d zero_info src
    (Z.to_nat (M_TILES d) * Z.to_nat (K_TILES d))
    (encode_pass d zero_info src new0 sparse0 tsize0).
Proof.
  intros HM. unfold encode_pass.
  assert (EM : M_GLOBAL d / TILING_SIZE = M_TILES d).
  { unfold M_GLOBAL. change M with 16. change TILING_SIZE with 16.
    rewrite Z.mul_comm, Z.div_mul by lia. reflexivity. }
  assert (EK : K_GLOBAL d / TILING_SIZE = K_TILES d).
  { unfold K_GLOBAL. change K with 16. change TILING_SIZE with 16.
    rewrite Z.mul_comm, Z.div_mul by lia. reflexivity. }
  rewrite EM, EK.
  apply (for_loop_inv
           (fun a st =>
              pass_inv d zero_info src (a * Z.to_nat (K_TILES d)) st)).
  - apply pass_inv_init.
  - intros a st Ha Hinv.
    replace (S a * Z.to_nat (K_TILES d))%nat
      with (a * Z.to_nat (K_TILES d) + Z.to_nat (K_TILES d))%nat by lia.
    apply (for_loop_inv
             (fun c st => pass_inv d zero_info src
                            (a * Z.to_nat (K_TILES d) + c) st)).
    + now rewrite Nat.add_0_r.
    + intros c st' Hc Hinv'.
      replace (a * Z.to_nat (K_TILES d) + S c)%nat
        with (S (a * Z.to_nat (K_TILES d) + c)) by lia.
      apply pass_inv_step; try lia. assumption.
Qed.
End EncodePass.

(** ** Popcount and decoding *)

Lemma filter_map_length {A B} (g : B -> bool) (h : A -> B) l :
  length (filter g (map h l)) = length (filter (fun x => g (h x)) l).
Proof.
  induction l as [|x l IH]; cbn [map filter]; [reflexivity|].
  destruct (g (h x)); cbn [length]; now rewrite IH.
Qed.

Lemma sum_filter_flat_map {A B} (g : B -> bool) (phi : A -> Z -> B)
      (l : list Z) (ks : list A) :
  fold_right Z.add 0
    (map (fun k => Z.of_nat (length (filter (fun b => g (phi k b)) l))) ks)
  = Z.of_nat (length (filter g (flat_map (fun k => map (phi k) l) ks))).
Proof.
  induction ks as [|k ks IH]; cbn [map fold_right flat_map]; [reflexivity|].
  rewrite IH, filter_app, length_app, filter_map_length. lia.
Qed.

Lemma bit_owner_pairs :
  flat_map (fun w => map (bit_owner w) (range 32)) (range 8) = block_pairs.
Proof. vm_compute. reflexivity. Qed.

Lemma bit_owner_bit masks w b :
  0 <= w < 8 -> 0 <= b < 32 ->
  mask_bit masks (bit_owner w b) = Z.testbit (masks w) b.
Proof.
  intros Hw Hb. unfold mask_bit, bit_owner. cbn [fst snd].
  f_equal; [f_equal|]; Z.div_mod_to_equations; lia.
Qed.

Lemma bit_owner_in w b :
  0 <= w < 8 -> 0 <= b < 32 -> In (bit_owner w b) block_pairs.
Proof.
  intros Hw Hb. apply block_pairs_in. unfold bit_owner. cbn [fst snd].
  Z.div_mod_to_equations. lia.
Qed.

(** The popcount of a block's eight mask words counts the positions whose
    bit is set. *)
Lemma popcount_block_pairs tab blk :
  popcount_block tab blk
  = Z.of_nat (length (filter (mask_bit (fun k => tab (blk * 8 + k)))
                             block_pairs)).
Proof.
  unfold popcount_block, popcount32.
  transitivity
    (fold_right Z.add 0
       (map (fun w => Z.of_nat (length (filter
                (fun b => mask_bit (fun k => tab (blk * 8 + k)) (bit_owner w b))
                (range 32))))
            (range 8))).
  - apply (f_equal (fold_right Z.add 0)). apply map_ext_in.
    intros w Hw. apply in_range in Hw.
    apply (f_equal Z.of_nat). apply (f_equal (@length Z)).
    apply filter_ext_in. intros b Hb. apply in_range in Hb.
    symmetry. apply (bit_owner_bit (fun k => tab (blk * 8 + k))); lia.
  - rewrite sum_filter_flat_map, bit_owner_pairs. reflexivity.
Qed.


Lemma map_range_nth (f : Z -> Z) (l : list Z) :
  (forall k, (k < length l)%nat -> f (Z.of_nat k) = nth k l 0) ->
  map f (range (length l)) = l.
Proof.
  intros H. apply (nth_ext _ _ (f 0) 0).
  - unfold range. now rewrite !length_map, length_seq.
  - intros k Hk. unfold range in *. rewrite !length_map, length_seq in Hk.
    rewrite (map_nth f), (map_nth Z.of_nat _ O), seq_nth by assumption.
    now apply H.
Qed.

(** ** What an encoding pass leaves in its tables *)

Section EncodeResult.
Variable d : dims.
Variable zero_info : Z -> bool.
Variable src : Z -> Z.
Hypothesis HM : 0 < M_TILES d.
Hypothesis HK : 0 < K_TILES d.
(** A state reached after [n] blocks, and a block among them. *)
Variable st : enc_state.
Variable n : nat.
Hypothesis Hst : pass_inv d zero_info src n st.
Variable blk : Z.
Hypothesis Hblk : 0 <= blk < M_TILES d * K_TILES d.
Hypothesis Hdone : (Z.to_nat blk < n)%nat.

Lemma pass_tsize :
  tsize_tab st blk
  = prefix_count d zero_info src (Z.to_nat blk)
    + Z.of_nat (length (blk_vals d zero_info src blk)).
Proof.
  destruct Hst as (_ & _ & Hts & _).
  specialize (Hts (Z.to_nat blk) Hdone). rewrite Z2Nat.id in Hts by lia.
  rewrite Hts. cbn [prefix_count]. rewrite Z2Nat.id by lia. reflexivity.
Qed.

Lemma pass_count_before :
  count_before (tsize_tab st) blk
  = prefix_count d zero_info src (Z.to_nat blk).
Proof.
  unfold count_before. destruct (Z.eqb_spec blk 0) as [E|Hne].
  - rewrite E. reflexivity.
  - destruct Hst as (_ & _ & Hts & _).
    assert (Hp : (Nat.pred (Z.to_nat blk) < n)%nat) by lia.
    specialize (Hts (Nat.pred (Z.to_nat blk)) Hp).
    replace (Z.of_nat (Nat.pred (Z.to_nat blk))) with (blk - 1) in Hts by lia.
    rewrite Hts. f_equal. lia.
Qed.

Lemma pass_block_values :
  block_values st blk = blk_vals d zero_info src blk.
Proof.
  unfold block_values. rewrite pass_count_before, pass_tsize.
  replace (prefix_count d zero_info src (Z.to_nat blk)
           + Z.of_nat (length (blk_vals d zero_info src blk))
           - prefix_count d zero_info src (Z.to_nat blk))
    with (Z.of_nat (length (blk_vals d zero_info src blk))) by lia.
  rewrite Nat2Z.id. apply map_range_nth.
  intros k Hk. destruct Hst as (_ & _ & _ & _ & Hnv).
  specialize (Hnv (Z.to_nat blk) k Hdone).
  rewrite Z2Nat.id in Hnv by lia. now apply Hnv.
Qed.

Lemma pass_mask_bit p :
  In p block_pairs ->
  mask_bit (fun k => sparse_tab st (blk * 8 + k)) p
  = blk_flag d zero_info blk p.
Proof.
  intros Hp. destruct Hst as (_ & _ & _ & Hsp & _).
  specialize (Hsp (Z.to_nat blk) p Hdone Hp).
  rewrite Z2Nat.id in Hsp by lia. exact Hsp.
Qed.

Lemma pass_popcount :
  popcount_block (sparse_tab st) blk
  = Z.of_nat (length (blk_vals d zero_info src blk)).
Proof.
  rewrite popcount_block_pairs. apply (f_equal Z.of_nat).
  unfold blk_vals, flagged_vals. rewrite length_map.
  apply (f_equal (@length (Z * Z))).
  apply filter_ext_in. intros p Hp. now apply pass_mask_bit.
Qed.


End EncodeResult.

(** The state an encoding pass ends in covers every block. *)
Lemma encode_pass_done d blk :
  0 < M_TILES d -> 0 < K_TILES d -> 0 <= blk < M_TILES d * K_TILES d ->
  (Z.to_nat blk < Z.to_nat (M_TILES d) * Z.to_nat (K_TILES d))%nat.
Proof. intros HM HK Hblk. nia. Qed.

(** ** The generation loop *)



(** ** An encoding pass whose flags are all unset *)

Lemma filter_none {A} (l : list A) : filter (fun _ => false) l = [].
Proof. induction l as [|x l IH]; [reflexivity|exact IH]. Qed.

Lemma blk_vals_unflagged d src blk : blk_vals d (fun _ => false) src blk = [].
Proof.
  unfold blk_vals, flagged_vals, cell_flag. now rewrite filter_none.
Qed.

Lemma prefix_count_unflagged d src n :
  prefix_count d (fun _ => false) src n = 0.
Proof.
  induction n as [|n IH]; [reflexivity|].
  cbn [prefix_count]. rewrite IH, blk_vals_unflagged. reflexivity.
Qed.

(** ** The codec *)



(** C7: for every block of an encoded operand, the popcount of the
    block's bitmask is the difference between the prefix-count entry of
    the block and that of the previous block (0 before the first block),
    and the prefix-count table never decreases. *)
Theorem prefix_count_increment d zero_info src new0 sparse0 tsize0 blk :
  encodable d ->
  0 <= blk < M_TILES d * K_TILES d ->
  popcount_block (sparse_tab (encode_pass d zero_info src new0 sparse0 tsize0))
                 blk
  = tsize_tab (encode_pass d zero_info src new0 sparse0 tsize0) blk
    - count_before
        (tsize_tab (encode_pass d zero_info src new0 sparse0 tsize0)) blk /\
  count_before (tsize_tab (encode_pass d zero_info src new0 sparse0 tsize0)) blk
  <= tsize_tab (encode_pass d zero_info src new0 sparse0 tsize0) blk.
Proof.
  intros (HM & HK & _) Hblk.
  pose proof (encode_pass_inv d zero_info src HK new0 sparse0 tsize0
                ltac:(lia)) as Hinv.
  pose proof (encode_pass_done d blk HM HK Hblk) as Hdone.
  rewrite (pass_popcount d zero_info src _ _ Hinv),
          (pass_tsize d zero_info src _ _ Hinv),
          (pass_count_before d zero_info src _ _ Hinv) by assumption.
  lia.
Qed.

Lemma prefix_count_increment_witness :
  let g := generate small_dims demo_bern demo_rand (fun _ => 15360) in
  let s := encode_pass small_dims (g_zero_info g) (g_a g)
             (fun _ => 15360) (fun _ => 1) (fun _ => 1) in
  popcount_block (sparse_tab s) 63
  = tsize_tab s 63 - count_before (tsize_tab s) 63 /\
  count_before (tsize_tab s) 63 <= tsize_tab s 63.
Proof.
  apply (prefix_count_increment small_dims).
  - unfold encodable. cbn. lia.
  - cbn. lia.
Defined.

(** C5 at the B operand: whatever B holds, the second pass of
    [init_host_matrices] leaves B untouched and unread, appends nothing to
    B's compacted stream, and sets no bit in B's bitmask. *)
Theorem B_encoding_ignores_B bern rand h blk :
  0 <= blk < M_TILES src_dims * K_TILES src_dims ->
  r_b (init_host_matrices src_dims bern rand h) = h_b h /\
  new_count (r_encB (init_host_matrices src_dims bern rand h)) = 0 /\
  block_values (r_encB (init_host_matrices src_dims bern rand h)) blk = [] /\
  popcount_block
    (sparse_tab (r_encB (init_host_matrices src_dims bern rand h))) blk = 0.
Proof.
  intros Hblk. unfold init_host_matrices. cbn [r_b r_encB].
  assert (HM : 0 < M_TILES src_dims) by (cbn; lia).
  assert (HK : 0 < K_TILES src_dims) by (cbn; lia).
  pose proof (encode_pass_inv src_dims (fun _ => false)
                (g_a (generate src_dims bern rand (h_a h))) HK
                (h_b_new h) (h_B_sparse_info h) (h_B_tsize_info h)
                ltac:(cbn; lia)) as Hinv.
  pose proof (encode_pass_done src_dims blk HM HK Hblk) as Hdone.
  split; [reflexivity|]. split; [|split].
  - destruct Hinv as (_ & Hn & _). rewrite Hn. apply prefix_count_unflagged.
  - rewrite (pass_block_values src_dims _ _ _ _ Hinv) by assumption.
    apply blk_vals_unflagged.
  - rewrite (pass_popcount src_dims _ _ _ _ Hinv) by assumption.
    now rewrite blk_vals_unflagged.
Qed.

Lemma B_encoding_ignores_B_witness :
  h_b demo_buffers 0 = 15360 /\
  r_b (init_host_matrices src_dims demo_bern demo_rand demo_buffers)
  = h_b demo_buffers /\
  new_count (r_encB (init_host_matrices src_dims demo_bern demo_rand
                                        demo_buffers)) = 0 /\
  block_values (r_encB (init_host_matrices src_dims demo_bern demo_rand
                                           demo_buffers)) 0 = [] /\
  popcount_block
    (sparse_tab (r_encB (init_host_matrices src_dims demo_bern demo_rand
                                            demo_buffers))) 0 = 0.
Proof.
  split; [reflexivity|].
  apply (B_encoding_ignores_B demo_bern demo_rand demo_buffers 0).
  cbn. lia.
Defined.

(** ** Global loads of [semi_sparse] *)











(** ** alpha = 0 and beta = 0 *)

(** With alpha = 0 the last scaling leaves only zeros and NaNs, whatever
    the accumulation produced. *)
Lemma scale_d_zero_alpha sa x :
  f32_is_zero (scale_d (S754_zero sa) x) = true \/
  scale_d (S754_zero sa) x = S754_nan.
Proof. destruct x; cbn; auto. Qed.

(** X5: with [alpha = 0] every element [compute_gemm] leaves in an
    accumulator after the final scaling is a zero or a NaN, whatever
    [beta], the tile of C and the products were: [beta /= alpha] has
    divided by zero, and the result [0 * A B + beta * C] is lost. *)
Lemma alpha_zero_result
      (frag_a frag_b : Type)
      (mma_sync : list spec_float -> frag_a -> frag_b -> list spec_float)
      sa beta c_in ab :
  Forall (fun x => f32_is_zero x = true \/ x = S754_nan)
         (accumulator_result frag_a frag_b mma_sync (S754_zero sa) beta
                             c_in ab).
Proof.
  unfold accumulator_result. apply Forall_forall. intros x Hx.
  apply in_map_iff in Hx. destruct Hx as [y [<- _]].
  apply scale_d_zero_alpha.
Qed.







(* ================================================================== *)
(** * Further properties of the code *)
(* ================================================================== *)

(** ** The share of work of one thread block *)

Lemma stride_positions_length T G fuel : forall p,
  1 <= G -> 0 <= p < T + G -> 0 < Z.of_nat fuel -> T - p < Z.of_nat fuel ->
  Z.of_nat (length (stride_positions fuel T G p)) = (T - p + G - 1) / G.
Proof.
  induction fuel as [|fuel IH]; intros p HG Hp Hf0 Hf; [lia|].
  cbn [stride_positions].
  destruct (Z.leb_spec T p) as [H|H].
  - cbn [length]. symmetry. apply Z.div_small. lia.
  - cbn [length]. rewrite Nat2Z.inj_succ, IH by lia.
    replace (T - p + G - 1) with (T - (p + G) + G - 1 + 1 * G) by lia.
    rewrite Z.div_add by lia. lia.
Qed.

Lemma stride_positions_nth T G fuel : forall p k,
  (k < length (stride_positions fuel T G p))%nat ->
  nth_error (stride_positions fuel T G p) k = Some (p + Z.of_nat k * G).
Proof.
  induction fuel as [|fuel IH]; intros p k Hk; cbn [stride_positions] in *.
  - inversion Hk.
  - destruct (T <=? p); [inversion Hk|].
    destruct k as [|k]; cbn [nth_error].
    + f_equal. lia.
    + cbn [length] in Hk. rewrite IH by lia. f_equal. lia.
Qed.

(** X1: a block of a launch that does not wrap works on
    ceil((T - blockIdx) / gridDim) tiles, T the number of output tiles,
    and its [k]-th tile is the one at linear position
    [blockIdx + k * gridDim]; a block whose index is at least T gets
    none. *)
Theorem block_work d gridDim blockIdx :
  legal_dims d -> 1 <= gridDim -> no_wrap d gridDim ->
  0 <= blockIdx < gridDim ->
  exists fuel l,
    block_loop fuel d gridDim blockIdx = Some l /\
    Z.of_nat (length l)
    = (num_block_tiles d - blockIdx + gridDim - 1) / gridDim /\
    (forall k, (k < length l)%nat ->
       nth_error l k = Some (tile_of d (blockIdx + Z.of_nat k * gridDim))) /\
    (num_block_tiles d <= blockIdx -> l = []).
Proof.
  intros Hd HG Hw Hb.
  destruct (legal_dims_inv d Hd) as (m & n & Hm & Hn & HM & HN & _ & HT).
  unfold no_wrap in Hw. rewrite HT in *. change BLOCK_ROW_TILES with 8 in Hw.
  exists (S (Z.to_nat (m * n))). eexists.
  split; [apply (block_loop_spec d m n); try assumption; nia|].
  assert (Hlen : Z.of_nat (length (stride_positions (S (Z.to_nat (m * n)))
                                     (m * n) gridDim blockIdx))
                 = (m * n - blockIdx + gridDim - 1) / gridDim)
    by (apply stride_positions_length; nia).
  split; [|split].
  - rewrite length_map. exact Hlen.
  - intros k Hk. rewrite length_map in Hk.
    rewrite nth_error_map, stride_positions_nth by assumption. reflexivity.
  - intros Hge. rewrite Z.div_small in Hlen by lia.
    destruct (stride_positions (S (Z.to_nat (m * n))) (m * n) gridDim blockIdx);
      [reflexivity|cbn [length] in Hlen; lia].
Qed.

Lemma block_work_witness :
  exists fuel l,
    block_loop fuel src_dims 80 3 = Some l /\
    Z.of_nat (length l) = (num_block_tiles src_dims - 3 + 80 - 1) / 80 /\
    (forall k, (k < length l)%nat ->
       nth_error l k = Some (tile_of src_dims (3 + Z.of_nat k * 80))) /\
    (num_block_tiles src_dims <= 3 -> l = []).
Proof.
  apply (block_work src_dims 80 3).
  - exact src_dims_legal.
  - lia.
  - unfold no_wrap. rewrite num_block_tiles_src. vm_compute. discriminate.
  - lia.
Defined.



(** ** The host reference *)






Lemma f32_add_zero_l s x :
  f32_is_zero x = false -> f32_add (S754_zero s) x = x.
Proof. destruct x; cbn; try discriminate; reflexivity. Qed.




(** X6: the verification loop of [main] never reports a NaN: the test
    [fabs(x - y) > 0.1f] is false as soon as either value is NaN, and
    also when both are the same infinity. *)
Theorem mismatch_blind_to_nan x :
  mismatch S754_nan x = false /\
  mismatch x S754_nan = false /\
  mismatch (S754_infinity false) (S754_infinity false) = false /\
  mismatch (S754_infinity true) (S754_infinity true) = false.
Proof.
  repeat split; try reflexivity; destruct x; reflexivity.
Qed.

(** ** The encoder stays inside the buffers of [main] *)

(** The inner loops write the stream only at the positions they count. *)
Lemma encode_fold_above d zero_info src i j todo : forall bs,
  bs_new_count bs
  <= bs_new_count (fold_left (encode_step d zero_info src i j) todo bs) /\
  forall q,
    bs_new_count (fold_left (encode_step d zero_info src i j) todo bs) <= q ->
    bs_new (fold_left (encode_step d zero_info src i j) todo bs) q
    = bs_new bs q.
Proof.
  induction todo as [|p todo IH]; intros bs; cbn [fold_left].
  - split; [lia|reflexivity].
  - destruct (IH (encode_step d zero_info src i j bs p)) as [Hle Hfr].
    assert (Hs : bs_new_count bs
                 <= bs_new_count (encode_step d zero_info src i j bs p) /\
                 forall q,
                   bs_new_count (encode_step d zero_info src i j bs p) <= q ->
                   bs_new (encode_step d zero_info src i j bs p) q
                   = bs_new bs q).
    { unfold encode_step, encode_elem.
      destruct (zero_info (cell_idx d i j (fst p) (snd p)));
        cbn [bs_new_count bs_new].
      - split; [lia|]. intros q Hq. apply upd_other. lia.
      - split; [lia|reflexivity]. }
    destruct Hs as [Hle1 Hfr1]. split; [lia|].
    intros q Hq. rewrite Hfr by assumption. apply Hfr1. lia.
Qed.

Lemma encode_cells_above d zero_info src i j s q :
  bs_new_count (encode_cells d zero_info src i j s) <= q ->
  bs_new (encode_cells d zero_info src i j s) q = new_vals s q.
Proof.
  unfold encode_cells. rewrite for_loop_pairs. intros Hq.
  exact (proj2 (encode_fold_above d zero_info src i j _ _) q Hq).
Qed.

Lemma flagged_vals_length d zero_info src i j cells :
  (length (flagged_vals d zero_info src i j cells) <= length cells)%nat.
Proof.
  unfold flagged_vals. rewrite length_map. apply filter_length_le.
Qed.

Lemma block_pairs_length : length block_pairs = 256%nat.
Proof. reflexivity. Qed.

Lemma pass_frame_step d zero_info src new0 sparse0 tsize0 n i j st :
  0 < K_TILES d -> Z.of_nat n = i * K_TILES d + j ->
  pass_frame new0 sparse0 tsize0 n st ->
  pass_frame new0 sparse0 tsize0 (S n) (encode_block d zero_info src i j st).
Proof.
  intros HK En (Hc & Hnew & Hsp & Hts).
  destruct (encode_cells_spec d zero_info src i j st)
    as (_ & Bn & Bframe & _ & _).
  pose proof (flagged_vals_length d zero_info src i j block_pairs) as Hlen.
  rewrite block_pairs_length in Hlen.
  unfold pass_frame, encode_block.
  cbn [count_info new_count tsize_tab sparse_tab new_vals].
  rewrite block_number, <- En.
  split; [lia|]. split; [|split].
  - intros q Hq.
    destruct (Z.lt_ge_cases q 0) as [Hneg|Hpos].
    + rewrite Bframe by lia. apply Hnew. lia.
    + rewrite encode_cells_above by lia. apply Hnew. lia.
  - intros x Hx. rewrite for_loop_upd.
    destruct (Z.leb_spec (Z.of_nat n * 8) x); cbn [andb]; [|apply Hsp; lia].
    destruct (Z.ltb_spec x (Z.of_nat n * 8 + Z.of_nat 8)); [lia|].
    apply Hsp. lia.
  - intros x Hx. rewrite upd_other by lia. apply Hts. lia.
Qed.

Lemma encode_pass_frame d zero_info src new0 sparse0 tsize0 :
  0 <= M_TILES d -> 0 < K_TILES d ->
  pass_frame new0 sparse0 tsize0
    (Z.to_nat (M_TILES d) * Z.to_nat (K_TILES d))
    (encode_pass d zero_info src new0 sparse0 tsize0).
Proof.
  intros HM HK. unfold encode_pass.
  assert (EM : M_GLOBAL d / TILING_SIZE = M_TILES d).
  { unfold M_GLOBAL. change M with 16. change TILING_SIZE with 16.
    rewrite Z.mul_comm, Z.div_mul by lia. reflexivity. }
  assert (EK : K_GLOBAL d / TILING_SIZE = K_TILES d).
  { unfold K_GLOBAL. change K with 16. change TILING_SIZE with 16.
    rewrite Z.mul_comm, Z.div_mul by lia. reflexivity. }
  rewrite EM, EK.
  apply (for_loop_inv
           (fun a st => pass_frame new0 sparse0 tsize0
                          (a * Z.to_nat (K_TILES d)) st)).
  - unfold pass_frame. cbn [new_count new_vals sparse_tab tsize_tab].
    repeat split; intros; lia.
  - intros a st Ha Hinv.
    replace (S a * Z.to_nat (K_TILES d))%nat
      with (a * Z.to_nat (K_TILES d) + Z.to_nat (K_TILES d))%nat by lia.
    apply (for_loop_inv
             (fun c st => pass_frame new0 sparse0 tsize0
                            (a * Z.to_nat (K_TILES d) + c) st)).
    + now rewrite Nat.add_0_r.
    + intros c st' Hc Hinv'.
      replace (a * Z.to_nat (K_TILES d) + S c)%nat
        with (S (a * Z.to_nat (K_TILES d) + c)) by lia.
      apply pass_frame_step; try assumption. lia.
Qed.

(** X7.  An encoding pass of [init_host_matrices] stays inside the buffers
    [main] allocates for it: it fills the compacted stream from index 0 up
    to its final count, which is at most [M_GLOBAL * K_GLOBAL]; it writes
    bitmask words only below [M_GLOBAL * K_GLOBAL / 32] and prefix counts
    only below [M_GLOBAL * K_GLOBAL / 256]; every other cell of the three
    buffers keeps what it held before the pass. *)
Theorem encode_pass_in_bounds d zero_info src new0 sparse0 tsize0 :
  0 <= M_TILES d -> 0 < K_TILES d ->
  let s := encode_pass d zero_info src new0 sparse0 tsize0 in
  0 <= new_count s <= a_new_len d /\
  (forall q, ~ 0 <= q < new_count s -> new_vals s q = new0 q) /\
  (forall x, ~ 0 <= x < sparse_info_len d -> sparse_tab s x = sparse0 x) /\
  (forall x, ~ 0 <= x < tsize_info_len d -> tsize_tab s x = tsize0 x).
Proof.
  intros HM HK s.
  destruct (encode_pass_frame d zero_info src new0 sparse0 tsize0 HM HK)
    as (Hc & Hnew & Hsp & Hts).
  fold s in Hc, Hnew, Hsp, Hts.
  assert (EN : Z.of_nat (Z.to_nat (M_TILES d) * Z.to_nat (K_TILES d))
               = M_TILES d * K_TILES d).
  { rewrite Nat2Z.inj_mul, !Z2Nat.id by lia. reflexivity. }
  rewrite EN in Hc, Hsp, Hts.
  assert (E256 : M_GLOBAL d * K_GLOBAL d = M_TILES d * K_TILES d * 256).
  { unfold M_GLOBAL, K_GLOBAL. change M with 16. change K with 16. lia. }
  assert (E32 : sparse_info_len d = 8 * (M_TILES d * K_TILES d)).
  { unfold sparse_info_len. rewrite E256.
    replace (M_TILES d * K_TILES d * 256)
      with (8 * (M_TILES d * K_TILES d) * 32) by lia.
    apply Z.div_mul. lia. }
  assert (E16 : tsize_info_len d = M_TILES d * K_TILES d).
  { unfold tsize_info_len. rewrite E256. change (16 * 16) with 256.
    apply Z.div_mul. lia. }
  unfold a_new_len. rewrite E256, E32, E16.
  split; [lia|]. split; [exact Hnew|]. split; [exact Hsp|exact Hts].
Qed.

Lemma encode_pass_in_bounds_witness :
  let s := encode_pass small_dims demo_bern demo_rand
             (fun _ => 7) (fun _ => 7) (fun _ => 7) in
  0 <= new_count s <= a_new_len small_dims /\
  (forall q, ~ 0 <= q < new_count s -> new_vals s q = 7) /\
  (forall x, ~ 0 <= x < sparse_info_len small_dims -> sparse_tab s x = 7) /\
  (forall x, ~ 0 <= x < tsize_info_len small_dims -> tsize_tab s x = 7).
Proof.
  apply (encode_pass_in_bounds small_dims demo_bern demo_rand
           (fun _ => 7) (fun _ => 7) (fun _ => 7)); cbn; lia.
Defined.

(** ** The generation loop, entry by entry *)

Lemma flag_count_S bern n :
  flag_count bern (S n)
  = flag_count bern n + (if bern (Z.of_nat n) then 1 else 0).
Proof.
  unfold flag_count. rewrite range_S, filter_app, length_app.
  cbn [filter]. destruct (bern (Z.of_nat n)); cbn [length]; lia.
Qed.

Lemma gen_elem_full d bern rand a0 n i j g :
  Z.of_nat n = i * K_GLOBAL d + j ->
  gen_full bern rand a0 n g ->
  gen_full bern rand a0 (S n) (gen_elem d bern rand i j g).
Proof.
  intros En (Hc & Hin & Hout). unfold gen_full, gen_elem.
  rewrite <- En, flag_count_S.
  destruct (bern (Z.of_nat n)) eqn:Eb; cbn [g_a g_zero_info g_count].
  - split; [lia|]. split.
    + intros idx Hidx. destruct (Z.eq_dec idx (Z.of_nat n)) as [->|Hne].
      * rewrite !upd_same. unfold gen_value.
        rewrite Eb, Nat2Z.id, Hc. auto.
      * rewrite !upd_other by assumption. apply Hin. lia.
    + intros idx Hidx. rewrite !upd_other by lia. apply Hout. lia.
  - split; [lia|]. split.
    + intros idx Hidx. destruct (Z.eq_dec idx (Z.of_nat n)) as [->|Hne].
      * rewrite !upd_same. unfold gen_value. rewrite Eb. auto.
      * rewrite !upd_other by assumption. apply Hin. lia.
    + intros idx Hidx. rewrite !upd_other by lia. apply Hout. lia.
Qed.

Lemma generate_full d bern rand a0 :
  gen_full bern rand a0 (Z.to_nat (M_GLOBAL d) * Z.to_nat (K_GLOBAL d))
           (generate d bern rand a0).
Proof.
  unfold generate.
  apply (for_loop_inv
           (fun a g => gen_full bern rand a0 (a * Z.to_nat (K_GLOBAL d)) g)).
  - unfold gen_full. cbn [g_count g_a g_zero_info Nat.mul].
    split; [reflexivity|]. split; [intros; lia|auto].
  - intros a g Ha Hinv.
    replace (S a * Z.to_nat (K_GLOBAL d))%nat
      with (a * Z.to_nat (K_GLOBAL d) + Z.to_nat (K_GLOBAL d))%nat by lia.
    apply (for_loop_inv
             (fun c g => gen_full bern rand a0
                           (a * Z.to_nat (K_GLOBAL d) + c) g)).
    + now rewrite Nat.add_0_r.
    + intros c g' Hc Hinv'.
      replace (a * Z.to_nat (K_GLOBAL d) + S c)%nat
        with (S (a * Z.to_nat (K_GLOBAL d) + c)) by lia.
      apply gen_elem_full; [lia|assumption].
Qed.

Lemma half_of_int_f32 v :
  In (half_to_f32 (half_of_int v)) [f32_zero; f32_one; f32_two].
Proof.
  unfold half_of_int.
  destruct (v =? 0); [left; reflexivity|].
  destruct (v =? 1); [right; left; reflexivity|right; right; left; reflexivity].
Qed.

(** X8.  The generation loop of [init_host_matrices] in closed form.
    Entry [idx] of [a] is flagged exactly when its Bernoulli draw is true;
    a flagged entry holds [(half)(rand() % 3)] for the [rand()] call whose
    number is the count of flagged entries before [idx], an unflagged one
    holds 0; read back as [float] every entry is 0.0, 1.0 or 2.0;
    [A_count] ends as the number of flagged entries; nothing outside the
    [M_GLOBAL * K_GLOBAL] entries is written. *)
Theorem generate_spec d bern rand a0 :
  0 <= M_TILES d -> 0 <= K_TILES d ->
  let g := generate d bern rand a0 in
  g_count g = flag_count bern (Z.to_nat (M_GLOBAL d * K_GLOBAL d)) /\
  (forall idx, 0 <= idx < M_GLOBAL d * K_GLOBAL d ->
     g_zero_info g idx = bern idx /\
     g_a g idx = gen_value bern rand idx /\
     In (half_to_f32 (g_a g idx)) [f32_zero; f32_one; f32_two]) /\
  (forall idx, ~ 0 <= idx < M_GLOBAL d * K_GLOBAL d ->
     g_a g idx = a0 idx /\ g_zero_info g idx = false).
Proof.
  intros HM HK g.
  assert (HMG : 0 <= M_GLOBAL d) by (unfold M_GLOBAL; change M with 16; lia).
  assert (HKG : 0 <= K_GLOBAL d) by (unfold K_GLOBAL; change K with 16; lia).
  destruct (generate_full d bern rand a0) as (Hc & Hin & Hout).
  fold g in Hc, Hin, Hout.
  assert (EN : (Z.to_nat (M_GLOBAL d) * Z.to_nat (K_GLOBAL d))%nat
               = Z.to_nat (M_GLOBAL d * K_GLOBAL d)).
  { rewrite Z2Nat.inj_mul by assumption. reflexivity. }
  rewrite EN in Hc, Hin, Hout.
  rewrite Z2Nat.id in Hin, Hout by nia.
  split; [exact Hc|]. split; [|exact Hout].
  intros idx Hidx. destruct (Hin idx Hidx) as [Hz Ha].
  split; [exact Hz|]. split; [exact Ha|].
  rewrite Ha. unfold gen_value.
  destruct (bern idx); [apply half_of_int_f32|left; reflexivity].
Qed.

Lemma generate_spec_witness :
  let g := generate small_dims demo_bern demo_rand (fun _ => 15360) in
  g_count g
  = flag_count demo_bern
      (Z.to_nat (M_GLOBAL small_dims * K_GLOBAL small_dims)) /\
  (forall idx, 0 <= idx < M_GLOBAL small_dims * K_GLOBAL small_dims ->
     g_zero_info g idx = demo_bern idx /\
     g_a g idx = gen_value demo_bern demo_rand idx /\
     In (half_to_f32 (g_a g idx)) [f32_zero; f32_one; f32_two]) /\
  (forall idx, ~ 0 <= idx < M_GLOBAL small_dims * K_GLOBAL small_dims ->
     g_a g idx = 15360 /\ g_zero_info g idx = false).
Proof.
  apply (generate_spec small_dims demo_bern demo_rand (fun _ => 15360));
    cbn; lia.
Defined.

(** ** The stream holds as many values as the generator flagged *)

Lemma filter_length_perm {A} (f : A -> bool) (l l' : list A) :
  Permutation l l' -> length (filter f l) = length (filter f l').
Proof.
  induction 1 as [|x l l' _ IH|x y l|l l' l'' _ IH1 _ IH2]; cbn [filter].
  - reflexivity.
  - destruct (f x); cbn [length]; now rewrite IH.
  - destruct (f x), (f y); reflexivity.
  - now rewrite IH1.
Qed.

Lemma filter_length_same {A} (f g : A -> bool) (l : list A) :
  (forall x, In x l -> f x = g x) ->
  length (filter f l) = length (filter g l).
Proof.
  induction l as [|x l IH]; intros E; cbn [filter]; [reflexivity|].
  rewrite (E x) by now left.
  destruct (g x); cbn [length]; rewrite IH; auto; intros; apply E; now right.
Qed.

Lemma block_cells_S d n :
  block_cells d (S n)
  = block_cells d n
    ++ map (fun p => cell_idx d (Z.of_nat n / K_TILES d)
                              (Z.of_nat n mod K_TILES d) (fst p) (snd p))
           block_pairs.
Proof.
  unfold block_cells. rewrite range_S, flat_map_app.
  cbn [flat_map]. now rewrite app_nil_r.
Qed.

Lemma block_cells_length d n : length (block_cells d n) = (256 * n)%nat.
Proof.
  induction n as [|n IH]; [reflexivity|].
  rewrite block_cells_S, length_app, length_map, IH, block_pairs_length. lia.
Qed.

Lemma prefix_count_cells d zero_info src n :
  prefix_count d zero_info src n
  = Z.of_nat (length (filter zero_info (block_cells d n))).
Proof.
  induction n as [|n IH]; [reflexivity|].
  cbn [prefix_count]. rewrite block_cells_S, filter_app, length_app, IH.
  rewrite filter_map_length. unfold blk_vals, flagged_vals.
  rewrite length_map. unfold cell_flag. lia.
Qed.

(** Every dense index lies in one of the blocks. *)
Lemma block_cells_cover d x :
  0 < M_TILES d -> 0 < K_TILES d ->
  0 <= x < M_GLOBAL d * K_GLOBAL d ->
  In x (block_cells d (Z.to_nat (M_TILES d) * Z.to_nat (K_TILES d))).
Proof.
  intros HM HK Hx. unfold block_cells. apply in_flat_map.
  assert (HKG : K_GLOBAL d = 16 * K_TILES d) by reflexivity.
  assert (HMG : M_GLOBAL d = 16 * M_TILES d) by reflexivity.
  set (row := x / K_GLOBAL d). set (col := x mod K_GLOBAL d).
  assert (Ex : x = row * K_GLOBAL d + col).
  { unfold row, col. rewrite (Z.mul_comm (x / K_GLOBAL d)).
    apply Z.div_mod. lia. }
  assert (Hcol : 0 <= col < K_GLOBAL d) by (apply Z.mod_pos_bound; lia).
  assert (Hrow : 0 <= row < M_GLOBAL d).
  { split; [apply Z.div_pos; lia|apply Z.div_lt_upper_bound; lia]. }
  set (i := row / 16). set (j := col / 16).
  assert (Hi : 0 <= i < M_TILES d).
  { split; [apply Z.div_pos; lia|apply Z.div_lt_upper_bound; lia]. }
  assert (Hj : 0 <= j < K_TILES d).
  { split; [apply Z.div_pos; lia|apply Z.div_lt_upper_bound; lia]. }
  exists (i * K_TILES d + j). split.
  - apply in_range. nia.
  - apply in_map_iff. exists (row mod 16, col mod 16). split.
    + cbn [fst snd].
      assert (Ei : (i * K_TILES d + j) / K_TILES d = i).
      { rewrite Z.add_comm, Z.div_add by lia. rewrite Z.div_small; lia. }
      assert (Ej : (i * K_TILES d + j) mod K_TILES d = j).
      { rewrite Z.add_comm, Z.mod_add by lia. apply Z.mod_small. lia. }
      rewrite Ei, Ej. unfold cell_idx. change TILING_SIZE with 16.
      pose proof (Z.div_mod row 16 ltac:(lia)) as Er.
      pose proof (Z.div_mod col 16 ltac:(lia)) as Ec.
      fold i in Er. fold j in Ec.
      replace (i * 16 + row mod 16) with row by lia.
      replace (j * 16 + col mod 16) with col by lia.
      symmetry. exact Ex.
    + apply block_pairs_in. cbn [fst snd].
      split; apply Z.mod_pos_bound; lia.
Qed.

Lemma block_cells_perm d :
  0 < M_TILES d -> 0 < K_TILES d ->
  Permutation (range (Z.to_nat (M_GLOBAL d * K_GLOBAL d)))
              (block_cells d (Z.to_nat (M_TILES d) * Z.to_nat (K_TILES d))).
Proof.
  intros HM HK. apply NoDup_Permutation_bis.
  - apply NoDup_range.
  - rewrite block_cells_length. unfold range.
    rewrite length_map, length_seq.
    unfold M_GLOBAL, K_GLOBAL. change M with 16. change K with 16. nia.
  - intros x Hx. apply in_range in Hx.
    apply block_cells_cover; try assumption.
    rewrite Z2Nat.id in Hx; [exact Hx|].
    unfold M_GLOBAL, K_GLOBAL. change M with 16. change K with 16. nia.
Qed.

(** X9.  The number [A_count] that [init_host_matrices] prints is the
    number of values its first encoding pass put in [a_new], and is the
    last entry of [A_tsize_info]: the block scan of the encoder visits
    every entry the generation loop flagged, once. *)
Theorem stream_length_is_A_count d bern rand h :
  0 < M_TILES d -> 0 < K_TILES d ->
  let r := init_host_matrices d bern rand h in
  new_count (r_encA r) = g_count (r_gen r) /\
  tsize_tab (r_encA r) (M_TILES d * K_TILES d - 1) = g_count (r_gen r).
Proof.
  intros HM HK r.
  set (g := generate d bern rand (h_a h)).
  destruct (encode_pass_inv d (g_zero_info g) (g_a g) HK
              (h_a_new h) (h_A_sparse_info h) (h_A_tsize_info h)
              ltac:(lia))
    as (_ & Hn & Hts & _ & _).
  assert (HT : prefix_count d (g_zero_info g) (g_a g)
                 (Z.to_nat (M_TILES d) * Z.to_nat (K_TILES d))
               = g_count g).
  { rewrite prefix_count_cells.
    rewrite <- (filter_length_perm _ _ _ (block_cells_perm d HM HK)).
    destruct (generate_full d bern rand (h_a h)) as (Hc & Hin & _).
    fold g in Hc, Hin. rewrite Hc. unfold flag_count.
    assert (HMG : 0 <= M_GLOBAL d)
      by (unfold M_GLOBAL; change M with 16; lia).
    assert (HKG : 0 <= K_GLOBAL d)
      by (unfold K_GLOBAL; change K with 16; lia).
    rewrite <- Z2Nat.inj_mul by assumption.
    f_equal. apply filter_length_same.
    intros x Hx. apply in_range in Hx. apply Hin.
    rewrite Z2Nat.inj_mul in Hx by assumption. exact Hx. }
  change (r_encA r)
    with (encode_pass d (g_zero_info g) (g_a g)
            (h_a_new h) (h_A_sparse_info h) (h_A_tsize_info h)).
  change (r_gen r) with g.
  split; [now rewrite Hn|].
  set (b := (Z.to_nat (M_TILES d) * Z.to_nat (K_TILES d) - 1)%nat).
  assert (Eb : M_TILES d * K_TILES d - 1 = Z.of_nat b) by (unfold b; nia).
  rewrite Eb, (Hts b) by (unfold b; nia).
  replace (S b) with (Z.to_nat (M_TILES d) * Z.to_nat (K_TILES d))%nat
    by (unfold b; nia).
  exact HT.
Qed.

Lemma stream_length_is_A_count_witness :
  let r := init_host_matrices small_dims demo_bern demo_rand demo_buffers in
  new_count (r_encA r) = g_count (r_gen r) /\
  tsize_tab (r_encA r) (M_TILES small_dims * K_TILES small_dims - 1)
  = g_count (r_gen r).
Proof.
  apply (stream_length_is_A_count small_dims demo_bern demo_rand
           demo_buffers); cbn; lia.
Defined.

(** ** Shared memory of [compute_gemm]: streams and fragments *)

Lemma fold_upd_fun {V P} (l : list P) (addr : P -> Z) (val : P -> V)
      (F : Z -> V) :
  (forall p, In p l -> val p = F (addr p)) ->
  forall sh x,
    fold_left (fun sh p => upd sh (addr p) (val p)) l sh x
    = if existsb (fun p => x =? addr p) l then F x else sh x.
Proof.
  intros HF. induction l as [|p l IH]; intros sh x; cbn [fold_left existsb].
  - reflexivity.
  - rewrite IH by (intros; apply HF; now right).
    destruct (existsb (fun p0 => x =? addr p0) l).
    + now rewrite orb_true_r.
    + rewrite orb_false_r. unfold upd.
      destruct (Z.eqb_spec x (addr p)) as [->|]; [|reflexivity].
      apply HF. now left.
Qed.

Lemma gmem_idx_tile d bi bj w :
  legal_dims d -> is_output_tile d (bi, bj) -> 0 <= w < 8 ->
  gmem_idx d bi bj w = GLOBAL_MEM_STRIDE d * (16 * bi + 16 * w) + 16 * bj.
Proof.
  intros Hd Ht Hw.
  destruct Hd as ((m & Hm & HM) & (n & Hn & HN) & _ & Hsize).
  apply (output_tile_rc d m n HM HN) in Ht.
  destruct Ht as (r & c & Hr & Hc & E).
  assert (bi = 8 * r) by congruence. assert (bj = 8 * c) by congruence.
  subst bi bj.
  rewrite (gmem_idx_eq d m n Hm Hn HM HN Hsize r c w Hr Hc Hw).
  unfold GLOBAL_MEM_STRIDE. rewrite (NG_eq d n HN). lia.
Qed.

Lemma div_mod_128 a b :
  0 <= b < 128 -> (a * 128 + b) / 128 = a /\ (a * 128 + b) mod 128 = b.
Proof.
  intros Hb. split.
  - rewrite Z.div_add_l, Z.div_small by lia. lia.
  - rewrite (Z.add_comm (a * 128) b), Z.mod_add, Z.mod_small by lia.
    reflexivity.
Qed.

Lemma stream_cells_in d bi bj p :
  In p (stream_cells d bi bj) <->
  exists w i l e,
    0 <= w < 8 /\ 0 <= i < 16 /\ 0 <= l < 32 /\ 0 <= e < 4 /\
    p = (shmem_warp_stream_ptr w + SHMEM_STRIDE * i + 4 * l + e,
         gmem_idx d bi bj w + GLOBAL_MEM_STRIDE d * i + 4 * l + e).
Proof.
  unfold stream_cells. rewrite in_flat_map. split.
  - intros (w & Hw & H). apply in_flat_map in H. destruct H as (i & Hi & H).
    apply in_flat_map in H. destruct H as (l & Hl & H).
    apply in_map_iff in H. destruct H as (e & <- & He).
    apply in_range in Hw, Hi, Hl, He.
    exists w, i, l, e. repeat split; lia.
  - intros (w & i & l & e & Hw & Hi & Hl & He & ->).
    exists w. split; [apply in_range; lia|].
    apply in_flat_map. exists i. split; [apply in_range; lia|].
    apply in_flat_map. exists l. split; [apply in_range; lia|].
    apply in_map_iff. exists e. split; [reflexivity|apply in_range; lia].
Qed.

(** The float a stream copy moves sits at row [x / 128], column
    [x mod 128] of the tile, [x] being its index in shared memory. *)
Lemma stream_cells_fun d bi bj p :
  legal_dims d -> is_output_tile d (bi, bj) ->
  In p (stream_cells d bi bj) ->
  0 <= fst p < 16384 /\
  snd p = GLOBAL_MEM_STRIDE d * (16 * bi + fst p / 128)
          + (16 * bj + fst p mod 128).
Proof.
  intros Hd Ht Hp. apply stream_cells_in in Hp.
  destruct Hp as (w & i & l & e & Hw & Hi & Hl & He & ->).
  cbn [fst snd]. rewrite (gmem_idx_tile d bi bj w Hd Ht Hw).
  unfold shmem_warp_stream_ptr. change SHMEM_STRIDE with 128. change K with 16.
  assert (E : w * 128 * 16 + 128 * i + 4 * l + e
              = (16 * w + i) * 128 + (4 * l + e)) by lia.
  rewrite E.
  destruct (div_mod_128 (16 * w + i) (4 * l + e) ltac:(lia)) as [-> ->].
  split; lia.
Qed.

Lemma stream_cells_cover d bi bj x :
  0 <= x < 16384 ->
  exists p, In p (stream_cells d bi bj) /\ fst p = x.
Proof.
  intros Hx.
  exists (shmem_warp_stream_ptr (x / 2048) + SHMEM_STRIDE * ((x / 128) mod 16)
          + 4 * ((x mod 128) / 4) + x mod 4,
          gmem_idx d bi bj (x / 2048)
          + GLOBAL_MEM_STRIDE d * ((x / 128) mod 16)
          + 4 * ((x mod 128) / 4) + x mod 4).
  split.
  - apply stream_cells_in.
    exists (x / 2048), ((x / 128) mod 16), ((x mod 128) / 4), (x mod 4).
    repeat split; try reflexivity; Z.div_mod_to_equations; lia.
  - cbn [fst]. unfold shmem_warp_stream_ptr.
    change SHMEM_STRIDE with 128. change K with 16.
    Z.div_mod_to_equations; lia.
Qed.

Lemma existsb_fst_true {B} (l : list (Z * B)) x :
  (exists p, In p l /\ fst p = x) ->
  existsb (fun p => x =? fst p) l = true.
Proof.
  intros (p & Hp & E). apply existsb_exists. exists p.
  split; [assumption|]. apply Z.eqb_eq. congruence.
Qed.

Lemma existsb_fst_false {B} (l : list (Z * B)) x :
  (forall p, In p l -> fst p <> x) ->
  existsb (fun p => x =? fst p) l = false.
Proof.
  intros H. destruct (existsb _ l) eqn:E; [|reflexivity].
  apply existsb_exists in E. destruct E as (p & Hp & E).
  apply Z.eqb_eq in E. exfalso. apply (H p Hp). congruence.
Qed.

Lemma stream_in_spec d bi bj gm sh x :
  legal_dims d -> is_output_tile d (bi, bj) ->
  stream_in d bi bj gm sh x
  = if (0 <=? x) && (x <? 16384)
    then gm BufC (GLOBAL_MEM_STRIDE d * (16 * bi + x / 128)
                  + (16 * bj + x mod 128))
    else sh x.
Proof.
  intros Hd Ht. unfold stream_in.
  rewrite (fold_upd_fun (stream_cells d bi bj) fst
             (fun p => load gm (BufC, snd p))
             (fun x => gm BufC (GLOBAL_MEM_STRIDE d * (16 * bi + x / 128)
                                + (16 * bj + x mod 128)))).
  - destruct (Z.leb_spec 0 x), (Z.ltb_spec x 16384); cbn [andb].
    + rewrite existsb_fst_true; [reflexivity|].
      apply stream_cells_cover. lia.
    + rewrite existsb_fst_false; [reflexivity|].
      intros p Hp E. apply (stream_cells_fun d bi bj p Hd Ht) in Hp. lia.
    + rewrite existsb_fst_false; [reflexivity|].
      intros p Hp E. apply (stream_cells_fun d bi bj p Hd Ht) in Hp. lia.
    + rewrite existsb_fst_false; [reflexivity|].
      intros p Hp E. apply (stream_cells_fun d bi bj p Hd Ht) in Hp. lia.
  - intros p Hp. unfold load. cbn [fst snd].
    now rewrite (proj2 (stream_cells_fun d bi bj p Hd Ht Hp)).
Qed.

(** Index in shared memory, as floats, of element [(r, c)] of fragment
    [c[i][j]] of warp [w]. *)
Lemma c_frag_cell w i j r c :
  row_major (c_tile_ptr w i j) SHMEM_STRIDE r c
  = 128 * (32 * (w / 2) + 16 * i + r) + (64 * (w mod 2) + 16 * j + c).
Proof.
  unfold row_major, c_tile_ptr, shmem_warp_tile_ptr, SHMEM_OFFSET.
  change SHMEM_STRIDE with 128. change K with 16. change N with 16.
  change WARP_ROW_TILES with 4. lia.
Qed.

(** X10.  Through shared memory, element [(r, c)] of accumulator
    fragment [c[i][j]] of warp [w] is loaded with the element of C at row
    [32 * (w / 2) + 16 * i + r] and column [64 * (w mod 2) + 16 * j + c] of
    the block's 128x128 tile: the row-major stream-in by all warps and the
    fragment loads use the same layout of the tile in shared memory. *)
Theorem c_fragment_source d bi bj gm sh w i j r c :
  legal_dims d -> is_output_tile d (bi, bj) ->
  0 <= w < 8 -> 0 <= i < 2 -> 0 <= j < 4 -> 0 <= r < 16 -> 0 <= c < 16 ->
  load_c_frag (stream_in d bi bj gm sh) w i j r c
  = gm BufC (GLOBAL_MEM_STRIDE d * (16 * bi + (32 * (w / 2) + 16 * i + r))
             + (16 * bj + (64 * (w mod 2) + 16 * j + c))).
Proof.
  intros Hd Ht Hw Hi Hj Hr Hc. unfold load_c_frag.
  rewrite c_frag_cell, stream_in_spec by assumption.
  assert (Hrow : 0 <= 32 * (w / 2) + 16 * i + r < 128)
    by (Z.div_mod_to_equations; lia).
  assert (Hcol : 0 <= 64 * (w mod 2) + 16 * j + c < 128)
    by (Z.div_mod_to_equations; lia).
  set (row := 32 * (w / 2) + 16 * i + r) in *.
  set (col := 64 * (w mod 2) + 16 * j + c) in *.
  destruct (Z.leb_spec 0 (128 * row + col)); [|lia].
  destruct (Z.ltb_spec (128 * row + col) 16384); [|lia].
  cbn [andb].
  replace (128 * row + col) with (row * 128 + col) by lia.
  destruct (div_mod_128 row col ltac:(lia)) as [-> ->].
  reflexivity.
Qed.

Lemma frag_ids_in f :
  In f frag_ids <->
  0 <= fst f < 8 /\ 0 <= fst (snd f) < 2 /\ 0 <= snd (snd f) < 4.
Proof.
  unfold frag_ids. rewrite in_flat_map. split.
  - intros (w & Hw & H). apply in_flat_map in H. destruct H as (i & Hi & H).
    apply in_map_iff in H. destruct H as (j & <- & Hj).
    apply in_range in Hw, Hi, Hj. cbn [fst snd]. lia.
  - destruct f as [w [i j]]. cbn [fst snd]. intros (Hw & Hi & Hj).
    exists w. split; [apply in_range; lia|].
    apply in_flat_map. exists i. split; [apply in_range; lia|].
    apply in_map_iff. exists j. split; [reflexivity|apply in_range; lia].
Qed.

Lemma frag_of_cell w i j r c :
  0 <= w < 8 -> 0 <= i < 2 -> 0 <= j < 4 -> 0 <= r < 16 -> 0 <= c < 16 ->
  frag_of (32 * (w / 2) + 16 * i + r) (64 * (w mod 2) + 16 * j + c)
  = (w, (i, j)) /\
  (32 * (w / 2) + 16 * i + r) mod 16 = r /\
  (64 * (w mod 2) + 16 * j + c) mod 16 = c.
Proof.
  intros Hw Hi Hj Hr Hc. unfold frag_of.
  assert (E1 : (32 * (w / 2) + 16 * i + r) / 32 = w / 2)
    by (Z.div_mod_to_equations; lia).
  assert (E2 : (64 * (w mod 2) + 16 * j + c) / 64 = w mod 2)
    by (Z.div_mod_to_equations; lia).
  assert (E3 : (32 * (w / 2) + 16 * i + r) mod 32 = 16 * i + r)
    by (Z.div_mod_to_equations; lia).
  assert (E4 : (64 * (w mod 2) + 16 * j + c) mod 64 = 16 * j + c)
    by (Z.div_mod_to_equations; lia).
  rewrite E1, E2, E3, E4.
  assert (E5 : 2 * (w / 2) + w mod 2 = w) by (Z.div_mod_to_equations; lia).
  assert (E6 : (16 * i + r) / 16 = i) by (Z.div_mod_to_equations; lia).
  assert (E7 : (16 * j + c) / 16 = j) by (Z.div_mod_to_equations; lia).
  rewrite E5, E6, E7.
  repeat split; Z.div_mod_to_equations; lia.
Qed.

(** Every position of the tile lies in one fragment. *)
Lemma frag_of_range row col :
  0 <= row < 128 -> 0 <= col < 128 ->
  In (frag_of row col) frag_ids /\
  row = 32 * (fst (frag_of row col) / 2) + 16 * fst (snd (frag_of row col))
        + row mod 16 /\
  col = 64 * (fst (frag_of row col) mod 2) + 16 * snd (snd (frag_of row col))
        + col mod 16.
Proof.
  intros Hr Hc. unfold frag_of. cbn [fst snd]. split.
  - apply frag_ids_in. cbn [fst snd]. Z.div_mod_to_equations; lia.
  - split; Z.div_mod_to_equations; lia.
Qed.

Lemma store_d_frags_spec acc sh x :
  store_d_frags acc sh x
  = if (0 <=? x) && (x <? 16384)
    then acc (fst (frag_of (x / 128) (x mod 128)))
             (fst (snd (frag_of (x / 128) (x mod 128))))
             (snd (snd (frag_of (x / 128) (x mod 128))))
             ((x / 128) mod 16) ((x mod 128) mod 16)
    else sh x.
Proof.
  set (addr := fun q : (Z * (Z * Z)) * (Z * Z) =>
         row_major (c_tile_ptr (fst (fst q)) (fst (snd (fst q)))
                               (snd (snd (fst q))))
                   SHMEM_STRIDE (fst (snd q)) (snd (snd q))).
  set (val := fun q : (Z * (Z * Z)) * (Z * Z) =>
         acc (fst (fst q)) (fst (snd (fst q))) (snd (snd (fst q)))
             (fst (snd q)) (snd (snd q))).
  set (F := fun x =>
         acc (fst (frag_of (x / 128) (x mod 128)))
             (fst (snd (frag_of (x / 128) (x mod 128))))
             (snd (snd (frag_of (x / 128) (x mod 128))))
             ((x / 128) mod 16) ((x mod 128) mod 16)).
  set (cells := flat_map (fun f => map (pair f) block_pairs) frag_ids).
  assert (E : store_d_frags acc sh
              = fold_left (fun sh q => upd sh (addr q) (val q)) cells sh).
  { unfold store_d_frags, cells. symmetry.
    rewrite fold_left_flat_map. apply fold_left_same.
    intros s f. rewrite fold_left_map. reflexivity. }
  assert (Hin : forall q, In q cells <->
                  In (fst q) frag_ids /\ In (snd q) block_pairs).
  { intros [f p]. unfold cells. rewrite in_flat_map. cbn [fst snd]. split.
    - intros (f' & Hf & H). apply in_map_iff in H.
      destruct H as (p' & E' & Hp). inversion E'; subst. auto.
    - intros [Hf Hp]. exists f. split; [assumption|].
      apply in_map_iff. exists p. auto. }
  assert (Hq : forall q, In q cells ->
                 0 <= addr q < 16384 /\ val q = F (addr q)).
  { intros [[w [i j]] [r c]] H. apply Hin in H. cbn [fst snd] in H.
    destruct H as [Hf Hp]. apply frag_ids_in in Hf. apply block_pairs_in in Hp.
    cbn [fst snd] in Hf, Hp. destruct Hf as (Hw & Hi & Hj).
    destruct Hp as [Hr Hc].
    unfold addr, val, F. cbn [fst snd]. rewrite c_frag_cell.
    assert (Hrow : 0 <= 32 * (w / 2) + 16 * i + r < 128)
      by (Z.div_mod_to_equations; lia).
    assert (Hcol : 0 <= 64 * (w mod 2) + 16 * j + c < 128)
      by (Z.div_mod_to_equations; lia).
    destruct (frag_of_cell w i j r c Hw Hi Hj Hr Hc) as (Ef & Er & Ec).
    set (row := 32 * (w / 2) + 16 * i + r) in *.
    set (col := 64 * (w mod 2) + 16 * j + c) in *.
    replace (128 * row + col) with (row * 128 + col) by lia.
    destruct (div_mod_128 row col ltac:(lia)) as [-> ->].
    rewrite Ef, Er, Ec. cbn [fst snd]. split; [lia|reflexivity]. }
  rewrite E.
  rewrite (fold_upd_fun cells addr val F) by (intros q H; apply (Hq q H)).
  fold (F x).
  destruct (Z.leb_spec 0 x), (Z.ltb_spec x 16384); cbn [andb].
  - assert (Hx : existsb (fun p => x =? addr p) cells = true);
      [|now rewrite Hx].
    apply existsb_exists.
    assert (Hrow : 0 <= x / 128 < 128) by (Z.div_mod_to_equations; lia).
    assert (Hcol : 0 <= x mod 128 < 128) by (Z.div_mod_to_equations; lia).
    destruct (frag_of_range (x / 128) (x mod 128) Hrow Hcol)
      as (Hf & Erow & Ecol).
    exists (frag_of (x / 128) (x mod 128),
            ((x / 128) mod 16, (x mod 128) mod 16)).
    split.
    + apply Hin. cbn [fst snd]. split; [assumption|].
      apply block_pairs_in. cbn [fst snd].
      split; apply Z.mod_pos_bound; lia.
    + apply Z.eqb_eq. unfold addr. cbn [fst snd]. rewrite c_frag_cell.
      rewrite <- Erow, <- Ecol. Z.div_mod_to_equations; lia.
  - assert (Hx : existsb (fun p => x =? addr p) cells = false);
      [|now rewrite Hx].
    destruct (existsb _ cells) eqn:Ex; [|reflexivity].
    apply existsb_exists in Ex. destruct Ex as (q & Hq' & Ex).
    apply Z.eqb_eq in Ex. apply Hq in Hq'. lia.
  - assert (Hx : existsb (fun p => x =? addr p) cells = false);
      [|now rewrite Hx].
    destruct (existsb _ cells) eqn:Ex; [|reflexivity].
    apply existsb_exists in Ex. destruct Ex as (q & Hq' & Ex).
    apply Z.eqb_eq in Ex. apply Hq in Hq'. lia.
  - assert (Hx : existsb (fun p => x =? addr p) cells = false);
      [|now rewrite Hx].
    destruct (existsb _ cells) eqn:Ex; [|reflexivity].
    apply existsb_exists in Ex. destruct Ex as (q & Hq' & Ex).
    apply Z.eqb_eq in Ex. apply Hq in Hq'. lia.
Qed.

Lemma fold_store_fun {P} (l : list P) (b : buffer) (addr : P -> Z)
      (val : P -> Z) (F : Z -> Z) :
  (forall p, In p l -> val p = F (addr p)) ->
  forall gm b' x,
    fold_left (fun m p => store m (b, addr p) (val p)) l gm b' x
    = if buffer_eqb b b' && existsb (fun p => x =? addr p) l
      then F x else gm b' x.
Proof.
  intros HF. induction l as [|p l IH]; intros gm b' x;
    cbn [fold_left existsb].
  - now rewrite andb_false_r.
  - rewrite IH by (intros; apply HF; now right).
    destruct (buffer_eqb b b') eqn:Eb; cbn [andb].
    + destruct (existsb (fun p0 => x =? addr p0) l).
      * now rewrite orb_true_r.
      * rewrite orb_false_r. unfold store. cbn [fst snd]. rewrite Eb.
        cbn [andb]. rewrite (Z.eqb_sym (addr p) x).
        destruct (Z.eqb_spec x (addr p)) as [->|]; [|reflexivity].
        apply HF. now left.
    + unfold store. cbn [fst snd]. rewrite Eb. reflexivity.
Qed.

Lemma tile_col_bound d bi bj col :
  legal_dims d -> is_output_tile d (bi, bj) -> 0 <= col < 128 ->
  0 <= 16 * bj + col < GLOBAL_MEM_STRIDE d /\ 0 <= bi.
Proof.
  intros Hd Ht Hc.
  destruct Hd as ((m & Hm & HM) & (n & Hn & HN) & _ & Hsize).
  apply (output_tile_rc d m n HM HN) in Ht.
  destruct Ht as (r & c & Hr & Hcc & E).
  assert (bi = 8 * r) by congruence. assert (bj = 8 * c) by congruence.
  subst bi bj. unfold GLOBAL_MEM_STRIDE. rewrite (NG_eq d n HN). lia.
Qed.

Lemma div_mod_stride g a b :
  0 <= b < g -> (g * a + b) / g = a /\ (g * a + b) mod g = b.
Proof.
  intros Hb. rewrite (Z.mul_comm g a). split.
  - rewrite Z.div_add_l, Z.div_small by lia. lia.
  - rewrite (Z.add_comm (a * g) b), Z.mod_add, Z.mod_small by lia.
    reflexivity.
Qed.

Lemma stream_out_spec d bi bj sh gm row col :
  legal_dims d -> is_output_tile d (bi, bj) ->
  0 <= row < 128 -> 0 <= col < 128 ->
  stream_out d bi bj sh gm BufD
    (GLOBAL_MEM_STRIDE d * (16 * bi + row) + (16 * bj + col))
  = sh (128 * row + col).
Proof.
  intros Hd Ht Hr Hc. unfold stream_out.
  rewrite (fold_store_fun (stream_cells d bi bj) BufD snd
             (fun p => sh (fst p))
             (fun x => sh (128 * (x / GLOBAL_MEM_STRIDE d - 16 * bi)
                           + (x mod GLOBAL_MEM_STRIDE d - 16 * bj)))).
  - cbn [buffer_eqb andb].
    destruct (stream_cells_cover d bi bj (128 * row + col) ltac:(lia))
      as (p & Hp & Ep).
    destruct (stream_cells_fun d bi bj p Hd Ht Hp) as [_ Es].
    rewrite Ep in Es.
    replace (128 * row + col) with (row * 128 + col) in Es by lia.
    destruct (div_mod_128 row col ltac:(lia)) as [E1 E2].
    rewrite E1, E2 in Es.
    assert (Hx : existsb
                   (fun p0 => GLOBAL_MEM_STRIDE d * (16 * bi + row)
                              + (16 * bj + col) =? snd p0)
                   (stream_cells d bi bj) = true).
    { apply existsb_exists. exists p. split; [assumption|].
      apply Z.eqb_eq. now rewrite Es. }
    rewrite Hx.
    destruct (tile_col_bound d bi bj col Hd Ht Hc) as [Hb _].
    destruct (div_mod_stride (GLOBAL_MEM_STRIDE d) (16 * bi + row)
                (16 * bj + col) Hb) as [-> ->].
    f_equal. lia.
  - intros p Hp. destruct (stream_cells_fun d bi bj p Hd Ht Hp) as [Hf Es].
    cbn beta. rewrite Es.
    assert (Hcol : 0 <= fst p mod 128 < 128)
      by (apply Z.mod_pos_bound; lia).
    destruct (tile_col_bound d bi bj (fst p mod 128) Hd Ht Hcol) as [Hb _].
    destruct (div_mod_stride (GLOBAL_MEM_STRIDE d) (16 * bi + fst p / 128)
                (16 * bj + fst p mod 128) Hb) as [-> ->].
    f_equal. Z.div_mod_to_equations; lia.
Qed.

(** X11.  After the fragments are stored to shared memory and streamed
    out, position [(row, col)] of the block's 128x128 tile of D holds
    element [(row mod 16, col mod 16)] of fragment
    [c[(row mod 32) / 16][(col mod 64) / 16]] of warp
    [2 * (row / 32) + col / 64]: the eight warps' fragments tile the
    128x128 block, and each position comes from exactly this one. *)
Theorem d_tile_from_fragments d bi bj acc sh gm row col :
  legal_dims d -> is_output_tile d (bi, bj) ->
  0 <= row < 128 -> 0 <= col < 128 ->
  stream_out d bi bj (store_d_frags acc sh) gm BufD
    (GLOBAL_MEM_STRIDE d * (16 * bi + row) + (16 * bj + col))
  = acc (fst (frag_of row col)) (fst (snd (frag_of row col)))
        (snd (snd (frag_of row col))) (row mod 16) (col mod 16).
Proof.
  intros Hd Ht Hr Hc.
  rewrite stream_out_spec, store_d_frags_spec by assumption.
  destruct (Z.leb_spec 0 (128 * row + col)); [|lia].
  destruct (Z.ltb_spec (128 * row + col) 16384); [|lia].
  cbn [andb].
  replace (128 * row + col) with (row * 128 + col) by lia.
  destruct (div_mod_128 row col ltac:(lia)) as [-> ->]. reflexivity.
Qed.

(** X14.  Streaming a C tile in, loading the fragments, storing them
    back unchanged and streaming out copies the tile of C to the same
    tile of D: the load and the store side of the shared-memory staging are
    inverse to each other. *)
Theorem tile_passes_through d bi bj gm sh row col :
  legal_dims d -> is_output_tile d (bi, bj) ->
  0 <= row < 128 -> 0 <= col < 128 ->
  stream_out d bi bj
    (store_d_frags (load_c_frag (stream_in d bi bj gm sh))
                   (stream_in d bi bj gm sh))
    gm BufD (GLOBAL_MEM_STRIDE d * (16 * bi + row) + (16 * bj + col))
  = gm BufC (GLOBAL_MEM_STRIDE d * (16 * bi + row) + (16 * bj + col)).
Proof.
  intros Hd Ht Hr Hc.
  rewrite stream_out_spec, store_d_frags_spec by assumption.
  destruct (Z.leb_spec 0 (128 * row + col)); [|lia].
  destruct (Z.ltb_spec (128 * row + col) 16384); [|lia].
  cbn [andb].
  replace (128 * row + col) with (row * 128 + col) by lia.
  destruct (div_mod_128 row col ltac:(lia)) as [-> ->].
  destruct (frag_of_range row col Hr Hc) as (Hf & Erow & Ecol).
  apply frag_ids_in in Hf.
  unfold load_c_frag. rewrite c_frag_cell, stream_in_spec by assumption.
  rewrite <- Erow, <- Ecol.
  destruct (Z.leb_spec 0 (128 * row + col)); [|lia].
  destruct (Z.ltb_spec (128 * row + col) 16384); [|lia].
  cbn [andb].
  replace (128 * row + col) with (row * 128 + col) by lia.
  destruct (div_mod_128 row col ltac:(lia)) as [-> ->]. reflexivity.
Qed.

(** ** Staging of A and B *)

Lemma block_chunk_copy_in d bi bj tile_k s :
  In s (block_chunk_copy d bi bj tile_k) <->
  exists w l i e,
    0 <= w < 8 /\ 0 <= l < 32 /\ 0 <= i < 8 /\ 0 <= e < 8 /\
    s = (shmem_at (chunk_shmem_idx w l + i * CHUNK_COPY_LINES_PER_WARP) 0
         + 8 * (l mod CHUNK_COPY_LINE_LANES) + e,
         (fst (lane_ptr d bi bj w l tile_k),
          snd (lane_ptr d bi bj w l tile_k)
          + i * (K_GLOBAL d * CHUNK_COPY_LINES_PER_WARP) + e)).
Proof.
  unfold block_chunk_copy, chunk_copy. rewrite in_flat_map. split.
  - intros (w & Hw & H). apply in_flat_map in H. destruct H as (l & Hl & H).
    apply in_flat_map in H. destruct H as (i & Hi & H).
    apply in_map_iff in H. destruct H as (e & <- & He).
    apply in_range in Hw, Hl, Hi, He.
    exists w, l, i, e. repeat split; lia.
  - intros (w & l & i & e & Hw & Hl & Hi & He & ->).
    exists w. split; [apply in_range; lia|].
    apply in_flat_map. exists l. split; [apply in_range; lia|].
    apply in_flat_map. exists i. split; [apply in_range; lia|].
    apply in_map_iff. exists e. split; [reflexivity|apply in_range; lia].
Qed.

Lemma div_mod_80 a b :
  0 <= b < 80 -> (a * 80 + b) / 80 = a /\ (a * 80 + b) mod 80 = b.
Proof.
  intros Hb. split.
  - rewrite Z.div_add_l, Z.div_small by lia. lia.
  - rewrite (Z.add_comm (a * 80) b), Z.mod_add, Z.mod_small by lia.
    reflexivity.
Qed.

(** Row and column of [shmem] a lane writes, and the global cell it
    copies there. *)
Lemma chunk_copy_cell d bi bj tile_k w l i e :
  legal_dims d -> operands_addressable d -> is_output_tile d (bi, bj) ->
  0 <= w < 8 -> 0 <= l < 32 -> 0 <= i < 8 -> 0 <= e < 8 ->
  let row := 32 * (w mod 4) + (if w <? 4 then 0 else 128) + l / 8 + 4 * i in
  let col := 8 * (l mod 8) + e in
  shmem_at (chunk_shmem_idx w l + i * CHUNK_COPY_LINES_PER_WARP) 0
  + 8 * (l mod CHUNK_COPY_LINE_LANES) + e = row * 80 + col /\
  0 <= row < 256 /\ 0 <= col < 64 /\
  (fst (lane_ptr d bi bj w l tile_k),
   snd (lane_ptr d bi bj w l tile_k)
   + i * (K_GLOBAL d * CHUNK_COPY_LINES_PER_WARP) + e)
  = staged_cell d bi bj tile_k row col.
Proof.
  intros Hd [HA HB] Ht Hw Hl Hi He row col.
  destruct Hd as ((m & Hm & HM) & (n & Hn & HN) & (k & Hk & HK) & Hsize).
  apply (output_tile_rc d m n HM HN) in Ht.
  destruct Ht as (r & c & Hr & Hc & E).
  assert (bi = 8 * r) by congruence. assert (bj = 8 * c) by congruence.
  subst bi bj.
  assert (EK : K_GLOBAL d = 128 * k)
    by (unfold K_GLOBAL; rewrite HK; change K with 16; lia).
  assert (EM : M_GLOBAL d = 128 * m)
    by (unfold M_GLOBAL; rewrite HM; change M with 16; lia).
  assert (EN : N_GLOBAL d = 128 * n)
    by (unfold N_GLOBAL; rewrite HN; change N with 16; lia).
  rewrite EM, EK in HA. rewrite EN, EK in HB.
  assert (Hl8 : 0 <= l / 8 < 4) by (Z.div_mod_to_equations; lia).
  assert (Hlm : 0 <= l mod 8 < 8) by (Z.div_mod_to_equations; lia).
  assert (Hw4 : 0 <= w mod 4 < 4) by (Z.div_mod_to_equations; lia).
  split; [|split; [|split]].
  - unfold shmem_at, chunk_shmem_idx, shmem_idx_b_off, SHMEM_ROW, row, col.
    change (WARPS_PER_BLOCK / 2) with 4. change M with 16. change N with 16.
    change BLOCK_COL_TILES with 8. change CHUNK_COPY_LINE_LANES with 8.
    change CHUNK_COPY_LINES_PER_WARP with 4.
    change (CHUNK_K * K + SKEW_HALF) with 80.
    destruct (w <? 4); lia.
  - unfold row. destruct (w <? 4); lia.
  - unfold col. lia.
  - unfold lane_ptr, warp_ptr, staged_cell, row, col.
    change CHUNK_COPY_LINE_LANES with 8.
    change CHUNK_COPY_LINES_PER_WARP with 4.
    change M with 16. change N with 16. change K with 16.
    rewrite EK.
    rewrite (u32_small (l / 8 * (128 * k))) by nia.
    destruct (Z.ltb_spec w 4) as [Hlt|Hge]; cbn [fst snd].
    + rewrite (u32_small (8 * r * 16)) by nia.
      rewrite (u32_small (8 * r * 16 * (128 * k))) by nia.
      rewrite (u32_small (16 * (128 * k) * (w mod 4) * 2)) by nia.
      destruct (Z.ltb_spec (32 * (w mod 4) + 0 + l / 8 + 4 * i) 128); [|lia].
      f_equal. lia.
    + rewrite (u32_small (8 * c * 16)) by nia.
      rewrite (u32_small (8 * c * 16 * (128 * k))) by nia.
      rewrite (u32_small (16 * (128 * k) * (w mod 4) * 2)) by nia.
      destruct (Z.ltb_spec (32 * (w mod 4) + 128 + l / 8 + 4 * i) 128); [lia|].
      f_equal. lia.
Qed.

Lemma block_chunk_copy_fun d bi bj tile_k s :
  legal_dims d -> operands_addressable d -> is_output_tile d (bi, bj) ->
  In s (block_chunk_copy d bi bj tile_k) ->
  0 <= fst s < 20480 /\ fst s mod 80 < 64 /\
  snd s = staged_cell d bi bj tile_k (fst s / 80) (fst s mod 80).
Proof.
  intros Hd Ha Ht Hs. apply block_chunk_copy_in in Hs.
  destruct Hs as (w & l & i & e & Hw & Hl & Hi & He & ->).
  destruct (chunk_copy_cell d bi bj tile_k w l i e Hd Ha Ht Hw Hl Hi He)
    as (E1 & Hrow & Hcol & E2).
  cbn [fst snd]. rewrite E1, E2.
  destruct (div_mod_80 (32 * (w mod 4) + (if w <? 4 then 0 else 128)
                        + l / 8 + 4 * i) (8 * (l mod 8) + e) ltac:(lia))
    as [-> ->].
  repeat split; try lia.
Qed.

Lemma block_chunk_copy_cover d bi bj tile_k row col :
  legal_dims d -> operands_addressable d -> is_output_tile d (bi, bj) ->
  0 <= row < 256 -> 0 <= col < 64 ->
  exists s, In s (block_chunk_copy d bi bj tile_k) /\
            fst s = row * 80 + col.
Proof.
  intros Hd Ha Ht Hr Hc.
  set (w := row / 32). set (l := 8 * (row mod 4) + col / 8).
  set (i := (row mod 32) / 4). set (e := col mod 8).
  assert (Hw : 0 <= w < 8) by (unfold w; Z.div_mod_to_equations; lia).
  assert (Hl : 0 <= l < 32) by (unfold l; Z.div_mod_to_equations; lia).
  assert (Hi : 0 <= i < 8) by (unfold i; Z.div_mod_to_equations; lia).
  assert (He : 0 <= e < 8) by (unfold e; Z.div_mod_to_equations; lia).
  destruct (chunk_copy_cell d bi bj tile_k w l i e Hd Ha Ht Hw Hl Hi He)
    as (E1 & _ & _ & _).
  eexists. split.
  - apply block_chunk_copy_in. exists w, l, i, e.
    repeat split; try lia. 
  - cbn [fst]. rewrite E1.
    assert (El8 : l / 8 = row mod 4)
      by (unfold l; Z.div_mod_to_equations; lia).
    assert (Elm : l mod 8 = col / 8)
      by (unfold l; Z.div_mod_to_equations; lia).
    rewrite El8, Elm. unfold w, i, e.
    destruct (Z.ltb_spec (row / 32) 4); Z.div_mod_to_equations; lia.
Qed.

Lemma stage_spec d bi bj tile_k gm sh h :
  legal_dims d -> operands_addressable d -> is_output_tile d (bi, bj) ->
  stage d bi bj tile_k gm sh h
  = if (0 <=? h) && (h <? 20480) && (h mod 80 <? 64)
    then load gm (staged_cell d bi bj tile_k (h / 80) (h mod 80))
    else sh h.
Proof.
  intros Hd Ha Ht. unfold stage.
  rewrite (fold_upd_fun (block_chunk_copy d bi bj tile_k) fst
             (fun s => load gm (snd s))
             (fun h => load gm (staged_cell d bi bj tile_k
                                            (h / 80) (h mod 80)))).
  - destruct (Z.leb_spec 0 h), (Z.ltb_spec h 20480),
             (Z.ltb_spec (h mod 80) 64); cbn [andb];
      try (rewrite existsb_fst_false; [reflexivity|];
           intros s Hs E;
           apply (block_chunk_copy_fun d bi bj tile_k s Hd Ha Ht) in Hs;
           rewrite E in Hs; lia).
    rewrite existsb_fst_true; [reflexivity|].
    destruct (block_chunk_copy_cover d bi bj tile_k (h / 80) (h mod 80)
                Hd Ha Ht) as (s & Hs & Es).
    + Z.div_mod_to_equations; lia.
    + Z.div_mod_to_equations; lia.
    + exists s. split; [assumption|]. rewrite Es.
      Z.div_mod_to_equations; lia.
  - intros s Hs. cbn beta.
    now rewrite (proj2 (proj2 (block_chunk_copy_fun d bi bj tile_k s
                                 Hd Ha Ht Hs))).
Qed.

Lemma a_frag_cell w i ks r k :
  row_major (shmem_at ((w / 2) * M * 2 + i * M) (ks * K))
            (K * CHUNK_K + SKEW_HALF) r k
  = (32 * (w / 2) + 16 * i + r) * 80 + (16 * ks + k).
Proof.
  unfold row_major, shmem_at, SHMEM_ROW.
  change (K * CHUNK_K + SKEW_HALF) with 80.
  change (CHUNK_K * K + SKEW_HALF) with 80.
  change M with 16. change K with 16. lia.
Qed.

Lemma b_frag_cell w j ks k c :
  col_major (shmem_at (shmem_idx_b_off + (WARP_ROW_TILES * N) * (w mod 2)
                       + j * N) (ks * K))
            (K * CHUNK_K + SKEW_HALF) k c
  = (128 + 64 * (w mod 2) + 16 * j + c) * 80 + (16 * ks + k).
Proof.
  unfold col_major, shmem_at, SHMEM_ROW, shmem_idx_b_off.
  change (K * CHUNK_K + SKEW_HALF) with 80.
  change (CHUNK_K * K + SKEW_HALF) with 80.
  change BLOCK_COL_TILES with 8. change WARP_ROW_TILES with 4.
  change M with 16. change N with 16. change K with 16. lia.
Qed.

Lemma operand_frags_spec d bi bj tile_k gm sh w i j ks r k c :
  legal_dims d -> operands_addressable d -> is_output_tile d (bi, bj) ->
  0 <= w < 8 -> 0 <= i < 2 -> 0 <= j < 4 -> 0 <= ks < 4 ->
  0 <= r < 16 -> 0 <= k < 16 -> 0 <= c < 16 ->
  load_a_frag (stage d bi bj tile_k gm sh) w i ks r k
  = gm BufA ((16 * bi + (32 * (w / 2) + 16 * i + r)) * K_GLOBAL d
             + (16 * (tile_k + ks) + k)) /\
  load_b_frag (stage d bi bj tile_k gm sh) w j ks k c
  = gm BufB ((16 * bj + (64 * (w mod 2) + 16 * j + c)) * K_GLOBAL d
             + (16 * (tile_k + ks) + k)).
Proof.
  intros Hd Ha Ht Hw Hi Hj Hks Hr Hk Hc.
  unfold load_a_frag, load_b_frag.
  rewrite a_frag_cell, b_frag_cell, !stage_spec by assumption.
  assert (Hrow : 0 <= 32 * (w / 2) + 16 * i + r < 128)
    by (Z.div_mod_to_equations; lia).
  assert (Hcol : 0 <= 64 * (w mod 2) + 16 * j + c < 128)
    by (Z.div_mod_to_equations; lia).
  set (row := 32 * (w / 2) + 16 * i + r) in *.
  set (col := 64 * (w mod 2) + 16 * j + c) in *.
  replace (128 + 64 * (w mod 2) + 16 * j + c) with (128 + col)
    by (unfold col; lia).
  destruct (div_mod_80 row (16 * ks + k) ltac:(lia)) as [E1 E2].
  destruct (div_mod_80 (128 + col) (16 * ks + k) ltac:(lia)) as [E3 E4].
  rewrite E1, E2, E3, E4. unfold staged_cell, load.
  destruct (Z.leb_spec 0 (row * 80 + (16 * ks + k))); [|lia].
  destruct (Z.ltb_spec (row * 80 + (16 * ks + k)) 20480); [|lia].
  destruct (Z.leb_spec 0 ((128 + col) * 80 + (16 * ks + k))); [|lia].
  destruct (Z.ltb_spec ((128 + col) * 80 + (16 * ks + k)) 20480); [|lia].
  destruct (Z.ltb_spec (16 * ks + k) 64); [|lia].
  destruct (Z.ltb_spec row 128); [|lia].
  destruct (Z.ltb_spec (128 + col) 128); [lia|].
  cbn [andb fst snd]. split; f_equal; lia.
Qed.

(** ** The reduction over K *)

Lemma range_add a b :
  range (a + b) = range a ++ map (fun x => Z.of_nat a + x) (range b).
Proof.
  induction b as [|b IH].
  - rewrite Nat.add_0_r. cbn [range seq map]. now rewrite app_nil_r.
  - rewrite Nat.add_succ_r, !range_S, IH, map_app, <- app_assoc.
    cbn [map]. do 3 f_equal. lia.
Qed.

(** Two nested counted loops over [m] and [n] visit [n * a + b] in
    increasing order. *)
Lemma range_blocks {X} (G : Z -> X) n m :
  flat_map (fun a => map (fun b => G (Z.of_nat n * a + b)) (range n))
           (range m)
  = map G (range (m * n)).
Proof.
  induction m as [|m IH]; [reflexivity|].
  rewrite range_S, flat_map_app, IH. cbn [flat_map]. rewrite app_nil_r.
  replace (S m * n)%nat with (m * n + n)%nat by lia.
  rewrite range_add, map_app, map_map. f_equal.
  apply map_ext. intros b. f_equal. lia.
Qed.

Lemma flat_map_same {A B} (f g : A -> list B) l :
  (forall a, In a l -> f a = g a) -> flat_map f l = flat_map g l.
Proof.
  induction l as [|a l IH]; intros E; cbn [flat_map]; [reflexivity|].
  rewrite (E a) by now left. f_equal. apply IH. intros; apply E; now right.
Qed.

Lemma operand_values_spec d bi bj gm w i j r c tile_ks :
  legal_dims d -> operands_addressable d -> is_output_tile d (bi, bj) ->
  0 <= w < 8 -> 0 <= i < 2 -> 0 <= j < 4 -> 0 <= r < 16 -> 0 <= c < 16 ->
  forall sh,
  operand_values d bi bj gm w i j r c tile_ks sh
  = flat_map (fun tile_k =>
      flat_map (fun ks =>
        map (fun k =>
               (gm BufA ((16 * bi + (32 * (w / 2) + 16 * i + r)) * K_GLOBAL d
                         + (16 * (tile_k + ks) + k)),
                gm BufB ((16 * bj + (64 * (w mod 2) + 16 * j + c))
                         * K_GLOBAL d + (16 * (tile_k + ks) + k))))
            (range 16))
        (range 4))
      tile_ks.
Proof.
  intros Hd Ha Ht Hw Hi Hj Hr Hc.
  induction tile_ks as [|tile_k rest IH]; intros sh;
    cbn [operand_values flat_map]; [reflexivity|].
  rewrite IH. f_equal.
  change (Z.to_nat CHUNK_K) with 4%nat.
  apply flat_map_same. intros ks Hks. apply in_range in Hks.
  apply map_ext_in. intros k Hk. apply in_range in Hk.
  destruct (operand_frags_spec d bi bj tile_k gm sh w i j ks r k c
              Hd Ha Ht Hw Hi Hj ltac:(lia) Hr ltac:(lia) Hc) as [-> ->].
  reflexivity.
Qed.

Lemma reduction_indices {X} (G : Z -> X) (k : Z) :
  0 <= k ->
  flat_map (fun tile_k =>
      flat_map (fun ks => map (fun kk => G (16 * (tile_k + ks) + kk))
                              (range 16))
               (range 4))
    (map (fun c => 4 * c) (range (Z.to_nat (2 * k))))
  = map G (range (Z.to_nat (128 * k))).
Proof.
  intros Hk.
  rewrite flat_map_concat_map, map_map, <- flat_map_concat_map.
  replace (Z.to_nat (128 * k)) with (Z.to_nat (2 * k) * 64)%nat by lia.
  rewrite <- (range_blocks G 64 (Z.to_nat (2 * k))).
  apply flat_map_same. intros c _.
  change 64%nat with (4 * 16)%nat.
  rewrite <- (range_blocks (fun b => G (Z.of_nat (4 * 16) * c + b)) 16 4).
  apply flat_map_same. intros ks _.
  apply map_ext. intros kk. f_equal. lia.
Qed.

(** X13.  For element [(r, c)] of fragment [c[i][j]] of warp [w], the
    [tile_k] and [k_step] loops feed [mma_sync], in order, the products of
    [A[row * K_GLOBAL + kk]] and [B[col * K_GLOBAL + kk]] for
    [kk = 0, ..., K_GLOBAL - 1], where [row] and [col] are the global row
    and column of D the element is later stored to.  These are the operand
    pairs the inner loop of [matMultiplyOnHost] sums for that entry. *)
Theorem reduction_operands d bi bj gm sh w i j r c :
  legal_dims d -> operands_addressable d -> is_output_tile d (bi, bj) ->
  0 <= w < 8 -> 0 <= i < 2 -> 0 <= j < 4 -> 0 <= r < 16 -> 0 <= c < 16 ->
  operand_values d bi bj gm w i j r c (tile_k_values d) sh
  = map (fun kk =>
           (gm BufA ((16 * bi + (32 * (w / 2) + 16 * i + r)) * K_GLOBAL d
                     + kk),
            gm BufB ((16 * bj + (64 * (w mod 2) + 16 * j + c)) * K_GLOBAL d
                     + kk)))
        (range (Z.to_nat (K_GLOBAL d))).
Proof.
  intros Hd Ha Ht Hw Hi Hj Hr Hc.
  rewrite operand_values_spec by assumption.
  destruct Hd as (_ & _ & (k & Hk & HK) & _).
  unfold tile_k_values. change CHUNK_K with 4.
  assert (E1 : (K_TILES d + 4 - 1) / 4 = 2 * k)
    by (rewrite HK; Z.div_mod_to_equations; lia).
  assert (E2 : K_GLOBAL d = 128 * k)
    by (unfold K_GLOBAL; rewrite HK; change K with 16; lia).
  rewrite E1, E2.
  apply (reduction_indices
           (fun kk =>
              (gm BufA ((16 * bi + (32 * (w / 2) + 16 * i + r)) * (128 * k)
                        + kk),
               gm BufB ((16 * bj + (64 * (w mod 2) + 16 * j + c)) * (128 * k)
                        + kk)))).
  lia.
Qed.

(** X12.  The chunk copy of one [tile_k] iteration fills rows 0-127 of
    [shmem] with 64 consecutive [half]s of 128 rows of A and rows 128-255
    with those of B, starting at column [16 * tile_k] of the row; the 16
    skew columns of every row, and everything past row 255, keep their
    old contents. *)
Theorem staged_chunk d bi bj tile_k gm sh row col :
  legal_dims d -> operands_addressable d -> is_output_tile d (bi, bj) ->
  0 <= row -> 0 <= col < SHMEM_ROW ->
  stage d bi bj tile_k gm sh (shmem_at row col)
  = if (row <? 256) && (col <? 64)
    then load gm (staged_cell d bi bj tile_k row col)
    else sh (shmem_at row col).
Proof.
  intros Hd Ha Ht Hr Hc. change SHMEM_ROW with 80 in Hc.
  rewrite stage_spec by assumption.
  unfold shmem_at. change SHMEM_ROW with 80.
  destruct (div_mod_80 row col Hc) as [-> ->].
  destruct (Z.leb_spec 0 (row * 80 + col)); [|lia].
  destruct (Z.ltb_spec (row * 80 + col) 20480), (Z.ltb_spec row 256);
    try lia; reflexivity.
Qed.

(** X15.  Every shared-memory access of [compute_gemm] lies inside the
    [SHMEM_SZ] bytes [main] requests: the [float]s of the C and D streams
    and of the accumulator fragments, the [half]s of the chunk copy and of
    the operand fragments. *)
Theorem shmem_in_bounds w l ii e4 i j r c i8 e8 ks k :
  0 <= w < 8 -> 0 <= l < 32 ->
  0 <= ii < 16 -> 0 <= e4 < 4 ->
  0 <= i < 2 -> 0 <= j < 4 -> 0 <= r < 16 -> 0 <= c < 16 ->
  0 <= i8 < 8 -> 0 <= e8 < 8 -> 0 <= ks < 4 -> 0 <= k < 16 ->
  let stream := shmem_warp_stream_ptr w + SHMEM_STRIDE * ii + 4 * l + e4 in
  let cfrag := row_major (c_tile_ptr w i j) SHMEM_STRIDE r c in
  let copy := shmem_at (chunk_shmem_idx w l + i8 * CHUNK_COPY_LINES_PER_WARP)
                       0
              + 8 * (l mod CHUNK_COPY_LINE_LANES) + e8 in
  let afrag := row_major (shmem_at ((w / 2) * M * 2 + i * M) (ks * K))
                         (K * CHUNK_K + SKEW_HALF) r k in
  let bfrag := col_major (shmem_at (shmem_idx_b_off
                                    + (WARP_ROW_TILES * N) * (w mod 2)
                                    + j * N) (ks * K))
                         (K * CHUNK_K + SKEW_HALF) k c in
  (0 <= 4 * stream /\ 4 * stream + 4 <= SHMEM_SZ) /\
  (0 <= 4 * cfrag /\ 4 * cfrag + 4 <= SHMEM_SZ) /\
  (0 <= 2 * copy /\ 2 * copy + 2 <= SHMEM_SZ) /\
  (0 <= 2 * afrag /\ 2 * afrag + 2 <= SHMEM_SZ) /\
  (0 <= 2 * bfrag /\ 2 * bfrag + 2 <= SHMEM_SZ).
Proof.
  intros Hw Hl Hii He4 Hi Hj Hr Hc Hi8 He8 Hks Hk. cbv zeta.
  rewrite c_frag_cell, a_frag_cell, b_frag_cell.
  change SHMEM_SZ with 65536.
  unfold shmem_warp_stream_ptr, shmem_at, chunk_shmem_idx, shmem_idx_b_off,
    SHMEM_ROW.
  change SHMEM_STRIDE with 128. change (WARPS_PER_BLOCK / 2) with 4.
  change M with 16. change N with 16. change K with 16.
  change BLOCK_COL_TILES with 8. change CHUNK_COPY_LINE_LANES with 8.
  change CHUNK_COPY_LINES_PER_WARP with 4.
  change (CHUNK_K * 16 + SKEW_HALF) with 80.
  assert (0 <= w / 2 < 4) by (Z.div_mod_to_equations; lia).
  assert (0 <= w mod 2 < 2) by (Z.div_mod_to_equations; lia).
  assert (0 <= w mod 4 < 4) by (Z.div_mod_to_equations; lia).
  assert (0 <= l / 8 < 4) by (Z.div_mod_to_equations; lia).
  assert (0 <= l mod 8 < 8) by (Z.div_mod_to_equations; lia).
  destruct (w <? 4); repeat split; lia.
Qed.

Lemma src_dims_addressable : operands_addressable src_dims.
Proof. split; cbn; lia. Qed.

Lemma src_tile_8_16 : is_output_tile src_dims (8, 16).
Proof. unfold is_output_tile. cbn. lia. Qed.

Lemma c_fragment_source_witness :
  load_c_frag (stream_in src_dims 8 16 (fun _ k => k) (fun _ => 0)) 5 1 2 3 4
  = GLOBAL_MEM_STRIDE src_dims * (16 * 8 + (32 * (5 / 2) + 16 * 1 + 3))
    + (16 * 16 + (64 * (5 mod 2) + 16 * 2 + 4)).
Proof.
  apply (c_fragment_source src_dims 8 16 (fun _ k => k) (fun _ => 0) 5 1 2 3 4
           src_dims_legal src_tile_8_16); lia.
Defined.

Lemma d_tile_from_fragments_witness :
  stream_out src_dims 8 16
    (store_d_frags (fun w i j r c => 10000 * w + 1000 * i + 100 * j + 16 * r + c)
                   (fun _ => 0))
    (fun _ _ => 0) BufD
    (GLOBAL_MEM_STRIDE src_dims * (16 * 8 + 83) + (16 * 16 + 100))
  = 10000 * fst (frag_of 83 100) + 1000 * fst (snd (frag_of 83 100))
    + 100 * snd (snd (frag_of 83 100)) + 16 * (83 mod 16) + 100 mod 16.
Proof.
  apply (d_tile_from_fragments src_dims 8 16
           (fun w i j r c => 10000 * w + 1000 * i + 100 * j + 16 * r + c)
           (fun _ => 0) (fun _ _ => 0) 83 100
           src_dims_legal src_tile_8_16); lia.
Defined.

Lemma tile_passes_through_witness :
  stream_out src_dims 8 16
    (store_d_frags
       (load_c_frag (stream_in src_dims 8 16 (fun _ k => k) (fun _ => 0)))
       (stream_in src_dims 8 16 (fun _ k => k) (fun _ => 0)))
    (fun _ k => k) BufD
    (GLOBAL_MEM_STRIDE src_dims * (16 * 8 + 83) + (16 * 16 + 100))
  = GLOBAL_MEM_STRIDE src_dims * (16 * 8 + 83) + (16 * 16 + 100).
Proof.
  apply (tile_passes_through src_dims 8 16 (fun _ k => k) (fun _ => 0) 83 100
           src_dims_legal src_tile_8_16); lia.
Defined.

Lemma staged_chunk_witness :
  stage src_dims 8 16 12 (fun _ k => k) (fun _ => 0) (shmem_at 200 70)
  = if (200 <? 256) && (70 <? 64)
    then load (fun _ k => k) (staged_cell src_dims 8 16 12 200 70)
    else (fun _ => 0) (shmem_at 200 70).
Proof.
  apply (staged_chunk src_dims 8 16 12 (fun _ k => k) (fun _ => 0) 200 70
           src_dims_legal src_dims_addressable src_tile_8_16);
    [lia | change SHMEM_ROW with 80; lia].
Defined.

Lemma reduction_operands_witness :
  operand_values src_dims 8 16 (fun _ k => k) 5 1 2 3 4
                 (tile_k_values src_dims) (fun _ => 0)
  = map (fun kk =>
           ((16 * 8 + (32 * (5 / 2) + 16 * 1 + 3)) * K_GLOBAL src_dims + kk,
            (16 * 16 + (64 * (5 mod 2) + 16 * 2 + 4)) * K_GLOBAL src_dims
            + kk))
        (range (Z.to_nat (K_GLOBAL src_dims))).
Proof.
  apply (reduction_operands src_dims 8 16 (fun _ k => k) (fun _ => 0)
           5 1 2 3 4 src_dims_legal src_dims_addressable src_tile_8_16); lia.
Defined.

Lemma shmem_in_bounds_witness :
  (0 <= 4 * (shmem_warp_stream_ptr 7 + SHMEM_STRIDE * 15 + 4 * 31 + 3) /\
   4 * (shmem_warp_stream_ptr 7 + SHMEM_STRIDE * 15 + 4 * 31 + 3) + 4
   <= SHMEM_SZ) /\
  (0 <= 4 * row_major (c_tile_ptr 7 1 3) SHMEM_STRIDE 15 15 /\
   4 * row_major (c_tile_ptr 7 1 3) SHMEM_STRIDE 15 15 + 4 <= SHMEM_SZ) /\
  (0 <= 2 * (shmem_at (chunk_shmem_idx 7 31 + 7 * CHUNK_COPY_LINES_PER_WARP) 0
             + 8 * (31 mod CHUNK_COPY_LINE_LANES) + 7) /\
   2 * (shmem_at (chunk_shmem_idx 7 31 + 7 * CHUNK_COPY_LINES_PER_WARP) 0
        + 8 * (31 mod CHUNK_COPY_LINE_LANES) + 7) + 2 <= SHMEM_SZ) /\
  (0 <= 2 * row_major (shmem_at ((7 / 2) * M * 2 + 1 * M) (3 * K))
                      (K * CHUNK_K + SKEW_HALF) 15 15 /\
   2 * row_major (shmem_at ((7 / 2) * M * 2 + 1 * M) (3 * K))
                 (K * CHUNK_K + SKEW_HALF) 15 15 + 2 <= SHMEM_SZ) /\
  (0 <= 2 * col_major (shmem_at (shmem_idx_b_off
                                 + (WARP_ROW_TILES * N) * (7 mod 2) + 3 * N)
                                (3 * K))
                      (K * CHUNK_K + SKEW_HALF) 15 15 /\
   2 * col_major (shmem_at (shmem_idx_b_off
                            + (WARP_ROW_TILES * N) * (7 mod 2) + 3 * N)
                           (3 * K))
                 (K * CHUNK_K + SKEW_HALF) 15 15 + 2 <= SHMEM_SZ).
Proof.
  apply (shmem_in_bounds 7 31 15 3 1 3 15 15 7 7 3 15); lia.
Defined.

(** ** [simple_wmma_gemm] *)

Lemma s32_small z : 0 <= z < 2 ^ 31 -> s32 z = z.
Proof. intros H. unfold s32. rewrite Z.mod_small; lia. Qed.

Lemma warpM_eq bx tx :
  0 <= bx < 2 ^ 25 -> 0 <= tx < 128 ->
  warpM bx simple_blockDim_x tx = 4 * bx + tx / 32.
Proof.
  intros Hb Ht. unfold warpM. change simple_blockDim_x with 128.
  change WARP_SIZE with 32.
  rewrite (u32_small (bx * 128)) by lia.
  rewrite u32_small by lia.
  rewrite s32_small by (Z.div_mod_to_equations; lia).
  Z.div_mod_to_equations; lia.
Qed.

Lemma warpN_eq by_ ty :
  0 <= by_ < 2 ^ 25 -> 0 <= ty < 4 ->
  warpN by_ simple_blockDim_y ty = 4 * by_ + ty.
Proof.
  intros Hb Ht. unfold warpN. change simple_blockDim_y with 4.
  rewrite (u32_small (by_ * 4)) by lia.
  rewrite u32_small by lia.
  rewrite s32_small by lia. lia.
Qed.

Lemma simple_gridDim_x_eq d :
  0 <= M_TILES d -> M_GLOBAL d < 2 ^ 31 ->
  simple_gridDim_x d = (M_TILES d + 3) / 4.
Proof.
  intros HM Hs. unfold simple_gridDim_x.
  change (u32 (WMMA_M * simple_blockDim_x) / 32) with 64.
  change (u32 (64 - 1)) with 63.
  unfold M_GLOBAL in *. change M with 16 in *.
  rewrite u32_small by lia.
  Z.div_mod_to_equations; lia.
Qed.

Lemma simple_gridDim_y_eq d :
  0 <= N_TILES d -> N_GLOBAL d < 2 ^ 31 ->
  simple_gridDim_y d = (N_TILES d + 3) / 4.
Proof.
  intros HN Hs. unfold simple_gridDim_y.
  change (u32 (WMMA_N * simple_blockDim_y)) with 64.
  unfold N_GLOBAL in *. change N with 16 in *.
  rewrite (u32_small (16 * N_TILES d + 64)) by lia.
  rewrite u32_small by lia.
  Z.div_mod_to_equations; lia.
Qed.

(** X16.  In the launch [main] configures for [simple_wmma_gemm], every
    entry of D is stored by exactly one warp, as exactly one element of
    its 16x16 tile: some thread of the grid passes the store check and
    addresses the entry, and any thread that does so is in the same warp
    and addresses it as the same element. *)
Theorem simple_store_once d x :
  0 < M_TILES d -> 0 < N_TILES d -> M_GLOBAL d * N_GLOBAL d < 2 ^ 31 ->
  0 <= x < M_GLOBAL d * N_GLOBAL d ->
  exists t,
    in_launch d t /\ stores_at d t x /\
    forall t', in_launch d t' -> stores_at d t' x ->
      st_bx t' = st_bx t /\ st_by t' = st_by t /\
      st_tx t' / 32 = st_tx t / 32 /\ st_ty t' = st_ty t /\
      st_r t' = st_r t /\ st_c t' = st_c t.
Proof.
  intros HM HN Hsize Hx.
  assert (EM : M_GLOBAL d = 16 * M_TILES d) by reflexivity.
  assert (EN : N_GLOBAL d = 16 * N_TILES d) by reflexivity.
  assert (HMs : M_GLOBAL d < 2 ^ 31) by nia.
  assert (HNs : N_GLOBAL d < 2 ^ 31) by nia.
  pose proof (simple_gridDim_x_eq d ltac:(lia) HMs) as Egx.
  pose proof (simple_gridDim_y_eq d ltac:(lia) HNs) as Egy.
  set (row := x / N_GLOBAL d). set (col := x mod N_GLOBAL d).
  assert (Ex : x = N_GLOBAL d * row + col).
  { unfold row, col. apply Z.div_mod. lia. }
  assert (Hcol : 0 <= col < N_GLOBAL d) by (apply Z.mod_pos_bound; lia).
  assert (Hrow : 0 <= row < M_GLOBAL d).
  { split; [apply Z.div_pos; lia|apply Z.div_lt_upper_bound; lia]. }
  assert (Hcell : forall wM wN r c,
            simple_cell (N_GLOBAL d) wM wN r c
            = N_GLOBAL d * (16 * wM + r) + (16 * wN + c)).
  { intros. unfold simple_cell, row_major. change WMMA_M with 16.
    change WMMA_N with 16. lia. }
  exists (SimpleThread (row / 16 / 4) (col / 16 / 4)
                       (32 * ((row / 16) mod 4)) ((col / 16) mod 4)
                       (row mod 16) (col mod 16)).
  assert (Hl : in_launch d
                 (SimpleThread (row / 16 / 4) (col / 16 / 4)
                    (32 * ((row / 16) mod 4)) ((col / 16) mod 4)
                    (row mod 16) (col mod 16))).
  { unfold in_launch. cbn [st_bx st_by st_tx st_ty st_r st_c].
    rewrite Egx, Egy. change simple_blockDim_x with 128.
    change simple_blockDim_y with 4.
    rewrite EM in Hrow. rewrite EN in Hcol. clearbody row col.
    clear Ex Hx Hcell.
    repeat split; Z.div_mod_to_equations; lia. }
  split; [exact Hl|]. split.
  - unfold stores_at. cbn [st_bx st_by st_tx st_ty st_r st_c].
    rewrite warpM_eq, warpN_eq
      by (rewrite ?EM, ?EN in *; Z.div_mod_to_equations; lia).
    rewrite Hcell. unfold store_guard.
    change WMMA_M with 16. change WMMA_N with 16.
    assert (E1 : 4 * (row / 16 / 4) + 32 * ((row / 16) mod 4) / 32
                 = row / 16) by (Z.div_mod_to_equations; lia).
    assert (E2 : 4 * (col / 16 / 4) + (col / 16) mod 4 = col / 16)
      by (Z.div_mod_to_equations; lia).
    rewrite E1, E2. split.
    + apply andb_true_iff. split; apply Z.ltb_lt;
        rewrite ?EM, ?EN in *; Z.div_mod_to_equations; lia.
    + rewrite Ex. f_equal; Z.div_mod_to_equations; lia.
  - intros t' Hl' Hs'. destruct t' as [bx' by' tx' ty' r' c'].
    unfold in_launch in Hl'. unfold stores_at in Hs'.
    cbn [st_bx st_by st_tx st_ty st_r st_c] in *.
    rewrite Egx, Egy in Hl'. change simple_blockDim_x with 128 in *.
    change simple_blockDim_y with 4 in *.
    destruct Hl' as (Hbx & Hby & Htx & Hty & Hr' & Hc').
    assert (Hbx' : 0 <= bx' < 2 ^ 25)
      by (rewrite EM in HMs; Z.div_mod_to_equations; lia).
    assert (Hby' : 0 <= by' < 2 ^ 25)
      by (rewrite EN in HNs; Z.div_mod_to_equations; lia).
    change (warpM bx' 128 tx') with (warpM bx' simple_blockDim_x tx') in Hs'.
    change (warpN by' 4 ty') with (warpN by' simple_blockDim_y ty') in Hs'.
    rewrite (warpM_eq bx' tx' Hbx' Htx), (warpN_eq by' ty' Hby' Hty) in Hs'.
    destruct Hs' as [Hg Ha]. rewrite Hcell in Ha.
    unfold store_guard in Hg. change WMMA_M with 16 in Hg.
    change WMMA_N with 16 in Hg.
    apply andb_true_iff in Hg. destruct Hg as [Hg1 Hg2].
    apply Z.ltb_lt in Hg1, Hg2.
    assert (Htx32 : 0 <= tx' / 32 < 4) by (Z.div_mod_to_equations; lia).
    set (wM' := 4 * bx' + tx' / 32) in *.
    set (wN' := 4 * by' + ty') in *.
    assert (Hc2 : 0 <= 16 * wN' + c' < N_GLOBAL d) by (rewrite EN in *; lia).
    destruct (div_mod_stride (N_GLOBAL d) (16 * wM' + r') (16 * wN' + c') Hc2)
      as [Ed Em].
    rewrite Ha in Ed, Em. fold row in Ed. fold col in Em.
    unfold wM', wN' in *.
    repeat split; Z.div_mod_to_equations; lia.
Qed.




Lemma simple_store_once_witness :
  exists t,
    in_launch src_dims t /\ stores_at src_dims t 12345 /\
    forall t', in_launch src_dims t' -> stores_at src_dims t' 12345 ->
      st_bx t' = st_bx t /\ st_by t' = st_by t /\
      st_tx t' / 32 = st_tx t / 32 /\ st_ty t' = st_ty t /\
      st_r t' = st_r t /\ st_c t' = st_c t.
Proof.
  apply (simple_store_once src_dims 12345); cbn; lia.
Defined.


(** ** Global loads against the sizes of the device buffers *)

Lemma tile_row_bound d bi bj row :
  legal_dims d -> is_output_tile d (bi, bj) -> 0 <= row < 128 ->
  0 <= 16 * bi + row < M_GLOBAL d /\ 0 <= bj /\ 0 <= 16 * bj + row < N_GLOBAL d.
Proof.
  intros Hd Ht Hr.
  destruct Hd as ((m & Hm & HM) & (n & Hn & HN) & _ & Hsize).
  apply (output_tile_rc d m n HM HN) in Ht.
  destruct Ht as (r & c & Hrr & Hc & E).
  assert (bi = 8 * r) by congruence. assert (bj = 8 * c) by congruence.
  subst bi bj. rewrite (MG_eq d m HM), (NG_eq d n HN). lia.
Qed.

Lemma tile_k_values_in d tk :
  legal_dims d -> In tk (tile_k_values d) ->
  0 <= tk /\ 16 * tk + 64 <= K_GLOBAL d.
Proof.
  intros (_ & _ & (k & Hk & HK) & _) H. unfold tile_k_values in H.
  apply in_map_iff in H. destruct H as (c & <- & Hc). apply in_range in Hc.
  change CHUNK_K with 4 in *. unfold K_GLOBAL. change K with 16.
  rewrite HK in *.
  assert (E : (8 * k + 4 - 1) / 4 = 2 * k) by (Z.div_mod_to_equations; lia).
  rewrite E in Hc. lia.
Qed.

Lemma chunk_loads_in d p a :
  In a (chunk_loads d p) <->
  exists i e, 0 <= i < 8 /\ 0 <= e < 8 /\
    a = (fst p, snd p + i * (K_GLOBAL d * CHUNK_COPY_LINES_PER_WARP) + e).
Proof.
  unfold chunk_loads, int4_load. rewrite in_flat_map. split.
  - intros (i & Hi & H). apply in_map_iff in H. destruct H as (e & <- & He).
    apply in_range in Hi, He. cbn [fst snd]. exists i, e.
    repeat split; lia.
  - intros (i & e & Hi & He & ->). exists i. split; [apply in_range; lia|].
    apply in_map_iff. exists e. cbn [fst snd].
    split; [reflexivity|apply in_range; lia].
Qed.

Lemma staged_cell_in_buffer d bi bj tk row col :
  legal_dims d -> is_output_tile d (bi, bj) ->
  0 <= tk -> 16 * tk + 64 <= K_GLOBAL d ->
  0 <= row < 256 -> 0 <= col < 64 ->
  in_buffer d (staged_cell d bi bj tk row col).
Proof.
  intros Hd Ht Htk Hk Hr Hc. unfold in_buffer, staged_cell.
  destruct (Z.ltb_spec row 128); cbn [fst snd device_len].
  - destruct (tile_row_bound d bi bj row Hd Ht ltac:(lia)) as (Hb & _ & _).
    nia.
  - destruct (tile_row_bound d bi bj (row - 128) Hd Ht ltac:(lia))
      as (_ & _ & Hb).
    nia.
Qed.

(** X18.  Every global load [compute_gemm] issues for an output tile
    lies inside the buffer it reads, as [main] allocates it: the C stream
    inside the [M_GLOBAL * N_GLOBAL] floats of C, the chunk copies of
    warps 0-3 inside the [M_GLOBAL * K_GLOBAL] halves of A and those of
    warps 4-7 inside the [N_GLOBAL * K_GLOBAL] halves of B. *)
Theorem compute_gemm_loads_in_bounds d bi bj a :
  legal_dims d -> operands_addressable d -> is_output_tile d (bi, bj) ->
  In a (compute_gemm_loads d bi bj) -> in_buffer d a.
Proof.
  intros Hd Ha Ht H. unfold compute_gemm_loads in H.
  apply in_app_or in H. destruct H as [H|H].
  - unfold c_loads in H. apply in_map_iff in H. destruct H as (c & <- & Hc).
    apply tile_cells_in in Hc.
    destruct Hc as (w & i & l & e & Hw & Hi & Hl & He & ->).
    unfold in_buffer. cbn [fst snd device_len].
    rewrite (gmem_idx_tile d bi bj w Hd Ht Hw).
    destruct (tile_row_bound d bi bj (16 * w + i) Hd Ht ltac:(lia))
      as (Hb & _ & _).
    destruct (tile_col_bound d bi bj (4 * l + e) Hd Ht ltac:(lia))
      as (Hb2 & _).
    unfold GLOBAL_MEM_STRIDE in *. nia.
  - apply in_flat_map in H. destruct H as (w & Hw & H).
    apply in_flat_map in H. destruct H as (l & Hl & H).
    apply in_flat_map in H. destruct H as (tk & Htk & H).
    apply in_range in Hw, Hl. apply chunk_loads_in in H.
    destruct H as (i & e & Hi & He & ->).
    destruct (chunk_copy_cell d bi bj tk w l i e Hd Ha Ht
                ltac:(lia) ltac:(lia) Hi He) as (_ & Hrow & Hcol & ->).
    destruct (tile_k_values_in d tk Hd Htk) as [Htk0 Htk1].
    now apply staged_cell_in_buffer.
Qed.

(** X19.  [semi_sparse] reads past the end of A.  Its lanes advance
    [lane_ptr] by 32 halves 64 times, and [SIZE2] more times, before the
    dense chunk copy it shares with [compute_gemm]; for a tile of the last
    row of tiles, lane 31 of warp 3 then loads, in the last [tile_k]
    iteration, an [int4] beyond the [M_GLOBAL * K_GLOBAL] halves of A,
    whatever [SIZE2] is. *)
Theorem semi_sparse_reads_past_A SIZE2 d bj :
  legal_dims d -> operands_addressable d ->
  is_output_tile d (M_TILES d - 8, bj) ->
  exists a, In a (semi_sparse_loads SIZE2 d (M_TILES d - 8) bj) /\
            fst a = BufA /\ device_len d BufA <= snd a.
Proof.
  intros Hd Ha Ht.
  assert (Hk : exists k, 0 < k /\ K_TILES d = 8 * k)
    by (destruct Hd as (_ & _ & Hk & _); exact Hk).
  destruct Hk as (k & Hk & HK).
  set (bi := M_TILES d - 8) in *.
  set (tk := K_TILES d - 4).
  set (lp := lane_ptr d bi bj 3 31 tk).
  destruct (chunk_copy_cell d bi bj tk 3 31 7 7 Hd Ha Ht
              ltac:(lia) ltac:(lia) ltac:(lia) ltac:(lia))
    as (_ & _ & _ & E).
  fold lp in E.
  change (32 * (3 mod 4) + (if 3 <? 4 then 0 else 128) + 31 / 8 + 4 * 7)
    with 127 in E.
  change (8 * (31 mod 8) + 7) with 63 in E.
  unfold staged_cell in E. change (127 <? 128) with true in E. cbv iota in E.
  assert (Ef : fst lp = BufA) by congruence.
  assert (Es : snd lp + 7 * (K_GLOBAL d * CHUNK_COPY_LINES_PER_WARP) + 7
               = (16 * bi + 127) * K_GLOBAL d + 16 * tk + 63)
    by congruence.
  exists (fst lp,
          snd lp + 32 * 64 + 32 * Z.max 0 SIZE2
          + 7 * (K_GLOBAL d * CHUNK_COPY_LINES_PER_WARP) + 7).
  split; [|split].
  - unfold semi_sparse_loads. apply in_or_app. right.
    apply in_flat_map. exists 3. split; [apply in_range; lia|].
    apply in_flat_map. exists 31. split; [apply in_range; lia|].
    apply in_flat_map. exists tk. split.
    + unfold tile_k_values. apply in_map_iff. exists (2 * k - 1).
      change CHUNK_K with 4. split; [unfold tk; lia|].
      apply in_range. rewrite HK.
      assert (E1 : (8 * k + 4 - 1) / 4 = 2 * k)
        by (Z.div_mod_to_equations; lia).
      rewrite E1. lia.
    + unfold sparse_lane_loads. fold lp.
      apply in_or_app; right. apply in_or_app; right.
      apply in_or_app; right. apply in_or_app; right.
      apply in_or_app; right.
      apply chunk_loads_in. exists 7, 7. cbn [fst snd].
      repeat split; lia.
  - exact Ef.
  - cbn [snd device_len].
    assert (EM : M_GLOBAL d = 16 * M_TILES d) by reflexivity.
    assert (EK : K_GLOBAL d = 16 * K_TILES d) by reflexivity.
    unfold bi, tk in Es. nia.
Qed.

Lemma compute_gemm_loads_in_bounds_witness :
  in_buffer src_dims
    (BufC, gmem_idx src_dims 8 16 1 + GLOBAL_MEM_STRIDE src_dims * 2
           + 4 * 3 + 1).
Proof.
  apply (compute_gemm_loads_in_bounds src_dims 8 16 _
           src_dims_legal src_dims_addressable src_tile_8_16).
  unfold compute_gemm_loads. apply in_or_app. left.
  unfold c_loads. apply in_map_iff.
  exists (gmem_idx src_dims 8 16 1 + GLOBAL_MEM_STRIDE src_dims * 2
          + 4 * 3 + 1, (16 * 1 + 2, 4 * 3 + 1)).
  split; [reflexivity|].
  apply tile_cells_in. exists 1, 2, 3, 1. repeat split; lia.
Defined.

Lemma src_last_tile_row : is_output_tile src_dims (M_TILES src_dims - 8, 16).
Proof. unfold is_output_tile. cbn. lia. Qed.

Lemma semi_sparse_reads_past_A_witness :
  exists a, In a (semi_sparse_loads 3 src_dims (M_TILES src_dims - 8) 16) /\
            fst a = BufA /\ device_len src_dims BufA <= snd a.
Proof.
  apply (semi_sparse_reads_past_A 3 src_dims 16
           src_dims_legal src_dims_addressable src_last_tile_row).
Defined.

(** ** The fill of [c] *)

(** X20.  [init_host_matrices] fills [c] with the [rand()] draws that
    follow those of the generation loop: entry [t] of the
    [M_GLOBAL * N_GLOBAL] entries holds [(float)(rand() % 3)] for draw
    number [A_count + t], [A_count] being the number of flagged entries
    of [a]; no other entry of [c] is written. *)
Theorem c_fill_spec d bern rand h t :
  0 <= M_TILES d -> 0 <= N_TILES d -> 0 <= K_TILES d ->
  r_c (init_host_matrices d bern rand h) t
  = if (0 <=? t) && (t <? M_GLOBAL d * N_GLOBAL d)
    then float_of_int
           (rand (flag_count bern (Z.to_nat (M_GLOBAL d * K_GLOBAL d)) + t)
            mod 3)
    else h_c h t.
Proof.
  intros HM HN HK. unfold init_host_matrices. cbn [r_c].
  assert (HMG : 0 <= M_GLOBAL d) by (unfold M_GLOBAL; change M with 16; lia).
  assert (HNG : 0 <= N_GLOBAL d) by (unfold N_GLOBAL; change N with 16; lia).
  assert (HKG : 0 <= K_GLOBAL d) by (unfold K_GLOBAL; change K with 16; lia).
  destruct (generate_full d bern rand (h_a h)) as (Hc & _ & _).
  rewrite Hc, <- Z2Nat.inj_mul by assumption.
  set (base := flag_count bern (Z.to_nat (M_GLOBAL d * K_GLOBAL d))).
  change (for_loop (Z.to_nat (M_GLOBAL d * N_GLOBAL d))
            (fun t0 c => upd c t0 (float_of_int (rand (base + t0) mod 3)))
            (h_c h) t)
    with (for_loop (Z.to_nat (M_GLOBAL d * N_GLOBAL d))
            (fun k tab => upd tab (0 + k)
                              ((fun k => float_of_int (rand (base + k) mod 3))
                                 k))
            (h_c h) t).
  rewrite for_loop_upd. rewrite Z2Nat.id by nia.
  rewrite Z.sub_0_r. reflexivity.
Qed.

Lemma c_fill_spec_witness :
  r_c (init_host_matrices small_dims demo_bern demo_rand demo_buffers) 77
  = if (0 <=? 77) && (77 <? M_GLOBAL small_dims * N_GLOBAL small_dims)
    then float_of_int
           (demo_rand
              (flag_count demo_bern
                 (Z.to_nat (M_GLOBAL small_dims * K_GLOBAL small_dims)) + 77)
            mod 3)
    else h_c demo_buffers 77.
Proof.
  apply (c_fill_spec small_dims demo_bern demo_rand demo_buffers 77);
    cbn; lia.
Defined.

(** ** No two threads write the same shared cell *)

(** X21.  Within each of the three phases in which the threads of a
    block of [compute_gemm] write shared memory between two barriers, no
    cell is written twice: two writes of the C stream, of the chunk copy,
    or of the fragment stores that hit the same index come from the same
    warp, lane, iteration and element. *)
Theorem shared_writes_disjoint w l w' l' i16 e4 i16' e4' i8 e8 i8' e8'
        i j r c i' j' r' c' :
  0 <= w < 8 -> 0 <= l < 32 -> 0 <= w' < 8 -> 0 <= l' < 32 ->
  0 <= i16 < 16 -> 0 <= e4 < 4 -> 0 <= i16' < 16 -> 0 <= e4' < 4 ->
  0 <= i8 < 8 -> 0 <= e8 < 8 -> 0 <= i8' < 8 -> 0 <= e8' < 8 ->
  0 <= i < 2 -> 0 <= j < 4 -> 0 <= r < 16 -> 0 <= c < 16 ->
  0 <= i' < 2 -> 0 <= j' < 4 -> 0 <= r' < 16 -> 0 <= c' < 16 ->
  (stream_write w i16 l e4 = stream_write w' i16' l' e4' ->
   w = w' /\ i16 = i16' /\ l = l' /\ e4 = e4') /\
  (copy_write w l i8 e8 = copy_write w' l' i8' e8' ->
   w = w' /\ l = l' /\ i8 = i8' /\ e8 = e8') /\
  (frag_write w i j r c = frag_write w' i' j' r' c' ->
   w = w' /\ i = i' /\ j = j' /\ r = r' /\ c = c').
Proof.
  intros Hw Hl Hw' Hl' Hi16 He4 Hi16' He4' Hi8 He8 Hi8' He8'
         Hi Hj Hr Hc Hi' Hj' Hr' Hc'.
  split; [|split].
  - unfold stream_write, shmem_warp_stream_ptr.
    change SHMEM_STRIDE with 128. change K with 16. lia.
  - unfold copy_write, shmem_at, chunk_shmem_idx, shmem_idx_b_off, SHMEM_ROW.
    change (WARPS_PER_BLOCK / 2) with 4. change M with 16. change N with 16.
    change K with 16.
    change BLOCK_COL_TILES with 8. change CHUNK_COPY_LINE_LANES with 8.
    change CHUNK_COPY_LINES_PER_WARP with 4.
    change (CHUNK_K * 16 + SKEW_HALF) with 80.
    destruct (Z.ltb_spec w 4), (Z.ltb_spec w' 4);
      intros E; Z.div_mod_to_equations; lia.
  - unfold frag_write. rewrite !c_frag_cell.
    intros E. Z.div_mod_to_equations; lia.
Qed.

Lemma shared_writes_disjoint_witness :
  (stream_write 3 5 7 1 = stream_write 6 5 30 1 ->
   3 = 6 /\ 5 = 5 /\ 7 = 30 /\ 1 = 1) /\
  (copy_write 3 7 2 6 = copy_write 6 30 7 0 ->
   3 = 6 /\ 7 = 30 /\ 2 = 7 /\ 6 = 0) /\
  (frag_write 3 1 2 4 9 = frag_write 6 0 3 15 1 ->
   3 = 6 /\ 1 = 0 /\ 2 = 3 /\ 4 = 15 /\ 9 = 1).
Proof.
  apply (shared_writes_disjoint 3 7 6 30 5 1 5 1 2 6 7 0
                                1 2 4 9 0 3 15 1); lia.
Defined.

(** ** The epilogue of [simple_wmma_gemm] at alpha = 0 *)

Lemma f32_mul_zero_l s x :
  f32_is_finite x = true -> f32_is_zero (f32_mul (S754_zero s) x) = true.
Proof. destruct x; cbn; try discriminate; reflexivity. Qed.

(** X22.  With [alpha = 0], [simple_wmma_gemm] stores exactly
    [beta * c] wherever the accumulator is finite and [beta * c] is not a
    zero: its epilogue [alpha * acc + beta * c] never divides by [alpha]
    (for the same input [compute_gemm] stores a zero or a NaN). *)
Theorem simple_epilogue_alpha_zero sa beta acc c :
  f32_is_finite acc = true ->
  f32_is_zero (f32_mul beta c) = false ->
  simple_epilogue (S754_zero sa) beta acc c = f32_mul beta c.
Proof.
  intros Hfin Hnz. unfold simple_epilogue.
  pose proof (f32_mul_zero_l sa acc Hfin) as Hz.
  destruct (f32_mul (S754_zero sa) acc) eqn:E; try discriminate.
  now apply f32_add_zero_l.
Qed.

Lemma simple_epilogue_alpha_zero_witness :
  simple_epilogue f32_zero f32_1_2 f32_one f32_two = f32_mul f32_1_2 f32_two.
Proof.
  apply (simple_epilogue_alpha_zero false f32_1_2 f32_one f32_two);
    reflexivity.
Defined.
